(** * Clara: the realtime audio scheduler and the live transcript engine

    A shallow embedding of the conversation core of [src/App.tsx]:
    [playAudioChunk], [stopAllAudio], [updateLiveMessage],
    [finalizeMessage], [addMessage] and the [onmessage] callback of the
    live session, followed by the properties the design document states
    about them.  Around that core: the connection callbacks and
    [sendTextMessage] of [App], the crop rectangle of the avatar image
    (both versions of [App]) and the [draw] callback of [Visualizer],
    with the properties their code shows.

    Conventions of the embedding.
    - React state and refs are fields of one [State] record that every
      handler takes and returns; [setMessages (prev => ...)] updaters are
      applied in call order.
    - Clock readings and durations (JavaScript numbers, in seconds) are
      exact rationals [Q] in the state machine.  That is what the code
      computes wherever a value is compared, chosen or added once; where
      several durations are summed the code rounds at every addition, and
      the clock lines of [playAudioChunk] are given a second time on IEEE
      doubles ([Double]).
    - An exception that leaves a callback ends it: the state stays as
      the statements before the throw left it.
    - What the browser supplies is an input of the step that reads it:
      [Date.now()] for message identifiers, [ctx.currentTime], and the
      outcome of [decodeAudioData] (whose source, utils/audioUtils, is not
      part of the modelled files).
    - [playAudioChunk] is an async function: the part before its [await]
      runs inside the caller, the part after it runs when the decode
      promise settles, which is a separate step of the machine. *)

From Stdlib Require Import QArith Qminmax Qround Lqa SpecFloat.
From stdpp Require Import base list sorting strings.

Open Scope string_scope.
Open Scope list_scope.
Open Scope nat_scope.

(** ** Data model ([src/types.ts]) *)

Inductive AvatarPose : Set :=
  | IDLE_FRONT
  | LISTENING_SIDE
  | THINKING_GHOST
  | WALKING_AWAY.

(** [role: 'user' | 'model'] *)
Inductive Role : Set := user | model.

Global Instance Role_eq_dec : EqDecision Role.
Proof. solve_decision. Defined.

(** [ChatMessage].  Every message the program creates sets [isFinal], so
    the optional field is a plain boolean here. *)
Record ChatMessage : Set := mkMsg {
  id : string;
  role : Role;
  text : string;
  isFinal : bool
}.

Global Instance ChatMessage_eq_dec : EqDecision ChatMessage.
Proof. solve_decision. Defined.

(** ** The message list ([App.tsx], lines 390-417) *)

(** [[...prev, { id, role, text, isFinal }]] *)
Definition addMessage (newId : string) (r : Role) (t : string)
    (fin : bool) (prev : list ChatMessage) : list ChatMessage :=
  prev ++ [mkMsg newId r t fin].

(** The test both updaters apply to [prev[prev.length - 1]]:
    [lastMsg && lastMsg.role === role && !lastMsg.isFinal]. *)
Definition liveFor (r : Role) (lastMsg : option ChatMessage) : bool :=
  match lastMsg with
  | Some m => bool_decide (role m = r) && negb (isFinal m)
  | None => false
  end.

(** [updateLiveMessage]: the updater passed to [setMessages].  [newId] is
    the [Date.now().toString()] read when a message is created. *)
Definition updateLiveMessage (newId : string) (r : Role) (t : string)
    (prev : list ChatMessage) : list ChatMessage :=
  let lastMsg := prev !! (length prev - 1) in
  match lastMsg with
  | Some m =>
      if liveFor r lastMsg
      then <[length prev - 1 := mkMsg (id m) (role m) t (isFinal m)]> prev
      else prev ++ [mkMsg newId r t false]
  | None => prev ++ [mkMsg newId r t false]
  end.

(** [finalizeMessage]: the updater passed to [setMessages]. *)
Definition finalizeMessage (r : Role) (t : string)
    (prev : list ChatMessage) : list ChatMessage :=
  let lastMsg := prev !! (length prev - 1) in
  match lastMsg with
  | Some m =>
      if liveFor r lastMsg
      then <[length prev - 1 := mkMsg (id m) (role m) t true]> prev
      else prev
  | None => prev
  end.

(** ** Audio objects *)

(** An [AudioBuffer]: a number of sample frames at a sample rate.  The
    decoder is asked for 24 kHz mono; what it returns is its own. *)
Record AudioBuffer : Set := mkBuffer {
  frames : N;
  sampleRate : positive
}.

(** [audioBuffer.duration], in seconds. *)
Definition duration (b : AudioBuffer) : Q := Z.of_N (frames b) # sampleRate b.

(** An [AudioBufferSourceNode] after [source.start(when)].  [node_id] is
    the identity of the object, [node_chunk] the [base64Audio] the
    enclosing [playAudioChunk] call was given. *)
Record AudioBufferSourceNode : Set := mkSource {
  node_id : nat;
  node_chunk : string;
  node_buffer : AudioBuffer;
  node_when : Q
}.

(** The instant at which a started source runs out of samples. *)
Definition node_end (n : AudioBufferSourceNode) : Q :=
  (node_when n + duration (node_buffer n))%Q.

(** ** Program state *)

Record State : Type := mkState {
  (* React state *)
  messages : list ChatMessage;
  avatarPose : AvatarPose;
  (* refs *)
  nextStartTime : Q;                          (* nextStartTimeRef *)
  audioSources : list AudioBufferSourceNode;  (* audioSourcesRef: a Set,
                                                 kept in insertion order *)
  currentInputTrans : string;                 (* currentInputTransRef *)
  currentOutputTrans : string;                (* currentOutputTransRef *)
  idleTimeout : bool;                         (* idleTimeoutRef: a timer is armed *)
  (* suspended [playAudioChunk] calls, oldest first, each with its chunk *)
  decoding : list string;
  (* what the program has done to the outside world *)
  started : list AudioBufferSourceNode;       (* every [source.start] call *)
  stopped : list nat;                         (* every [s.stop()] call *)
  ended : list nat;                           (* every [onended] callback *)
  console : list string;                      (* [console.error] lines *)
  created : nat                               (* source nodes created so far *)
}.

Definition initial : State :=
  mkState [] IDLE_FRONT 0%Q [] "" "" false [] [] [] [] [] 0.

Definition set_messages (v : list ChatMessage) (s : State) : State :=
  mkState v (avatarPose s) (nextStartTime s) (audioSources s)
    (currentInputTrans s) (currentOutputTrans s) (idleTimeout s) (decoding s)
    (started s) (stopped s) (ended s) (console s) (created s).

Definition set_avatarPose (v : AvatarPose) (s : State) : State :=
  mkState (messages s) v (nextStartTime s) (audioSources s)
    (currentInputTrans s) (currentOutputTrans s) (idleTimeout s) (decoding s)
    (started s) (stopped s) (ended s) (console s) (created s).

Definition set_nextStartTime (v : Q) (s : State) : State :=
  mkState (messages s) (avatarPose s) v (audioSources s)
    (currentInputTrans s) (currentOutputTrans s) (idleTimeout s) (decoding s)
    (started s) (stopped s) (ended s) (console s) (created s).

Definition set_audioSources (v : list AudioBufferSourceNode) (s : State)
    : State :=
  mkState (messages s) (avatarPose s) (nextStartTime s) v
    (currentInputTrans s) (currentOutputTrans s) (idleTimeout s) (decoding s)
    (started s) (stopped s) (ended s) (console s) (created s).

Definition set_currentInputTrans (v : string) (s : State) : State :=
  mkState (messages s) (avatarPose s) (nextStartTime s) (audioSources s)
    v (currentOutputTrans s) (idleTimeout s) (decoding s)
    (started s) (stopped s) (ended s) (console s) (created s).

Definition set_currentOutputTrans (v : string) (s : State) : State :=
  mkState (messages s) (avatarPose s) (nextStartTime s) (audioSources s)
    (currentInputTrans s) v (idleTimeout s) (decoding s)
    (started s) (stopped s) (ended s) (console s) (created s).

Definition set_idleTimeout (v : bool) (s : State) : State :=
  mkState (messages s) (avatarPose s) (nextStartTime s) (audioSources s)
    (currentInputTrans s) (currentOutputTrans s) v (decoding s)
    (started s) (stopped s) (ended s) (console s) (created s).

Definition set_decoding (v : list string) (s : State) : State :=
  mkState (messages s) (avatarPose s) (nextStartTime s) (audioSources s)
    (currentInputTrans s) (currentOutputTrans s) (idleTimeout s) v
    (started s) (stopped s) (ended s) (console s) (created s).

Definition set_started (v : list AudioBufferSourceNode) (s : State) : State :=
  mkState (messages s) (avatarPose s) (nextStartTime s) (audioSources s)
    (currentInputTrans s) (currentOutputTrans s) (idleTimeout s) (decoding s)
    v (stopped s) (ended s) (console s) (created s).

Definition set_stopped (v : list nat) (s : State) : State :=
  mkState (messages s) (avatarPose s) (nextStartTime s) (audioSources s)
    (currentInputTrans s) (currentOutputTrans s) (idleTimeout s) (decoding s)
    (started s) v (ended s) (console s) (created s).

Definition set_ended (v : list nat) (s : State) : State :=
  mkState (messages s) (avatarPose s) (nextStartTime s) (audioSources s)
    (currentInputTrans s) (currentOutputTrans s) (idleTimeout s) (decoding s)
    (started s) (stopped s) v (console s) (created s).

Definition set_console (v : list string) (s : State) : State :=
  mkState (messages s) (avatarPose s) (nextStartTime s) (audioSources s)
    (currentInputTrans s) (currentOutputTrans s) (idleTimeout s) (decoding s)
    (started s) (stopped s) (ended s) v (created s).

Definition set_created (v : nat) (s : State) : State :=
  mkState (messages s) (avatarPose s) (nextStartTime s) (audioSources s)
    (currentInputTrans s) (currentOutputTrans s) (idleTimeout s) (decoding s)
    (started s) (stopped s) (ended s) (console s) v.

(** ** The audio scheduler ([App.tsx], lines 139-187, 383-388) *)

(** [resetIdleTimer]: clear the armed timer, arm a new one (2 s). *)
Definition resetIdleTimer (s : State) : State := set_idleTimeout true s.

(** The timer fires: [setAvatarPose(AvatarPose.IDLE_FRONT)]. *)
Definition idleTimerFired (s : State) : State :=
  if idleTimeout s then set_idleTimeout false (set_avatarPose IDLE_FRONT s)
  else s.

(** [playAudioChunk], up to its [await].  [ensureAudioContext] creates the
    gain node together with the context, so the early return on a missing
    gain node is never taken; the call suspends on the decode promise. *)
Definition playAudioChunk (base64Audio : string) (s : State) : State :=
  set_decoding (decoding s ++ [base64Audio]) s.

(** [playAudioChunk], the [try] body after the [await] (lines 151-175):
    the decode produced [audioBuffer] and [ctx.currentTime] reads
    [currentTime]. *)
Definition scheduleSource (base64Audio : string) (audioBuffer : AudioBuffer)
    (currentTime : Q) (s : State) : State :=
  let next :=
    if Qlt_le_dec (nextStartTime s) currentTime then currentTime
    else nextStartTime s in
  let source := mkSource (created s) base64Audio audioBuffer next in
  let s := set_created (S (created s)) s in
  let s := set_started (started s ++ [source]) s in            (* source.start *)
  let s := set_nextStartTime (next + duration audioBuffer)%Q s in
  let s := set_audioSources (audioSources s ++ [source]) s in  (* Set.add *)
  let s := set_avatarPose IDLE_FRONT s in
  resetIdleTimer s.

(** [playAudioChunk], the [catch] clause. *)
Definition decodeFailed (s : State) : State :=
  set_console (console s ++ ["Audio decode error"]) s.

(** The decode promise of the [i]-th suspended call settles: with a buffer
    ([Some]) or by rejection ([None]). *)
Definition playAudioChunk_resume (i : nat) (outcome : option AudioBuffer)
    (currentTime : Q) (s : State) : State :=
  match decoding s !! i with
  | None => s
  | Some base64Audio =>
      let s := set_decoding (delete i (decoding s)) s in
      match outcome with
      | Some audioBuffer => scheduleSource base64Audio audioBuffer currentTime s
      | None => decodeFailed s
      end
  end.

(** [source.onended]: [audioSourcesRef.current.delete(source)]. *)
Definition sourceEnded (n : nat) (s : State) : State :=
  let s := set_ended (ended s ++ [n]) s in
  set_audioSources (filter (λ x, node_id x ≠ n) (audioSources s)) s.

(** [stopAllAudio] *)
Definition stopAllAudio (s : State) : State :=
  let s := set_stopped (stopped s ++ map node_id (audioSources s)) s in
  let s := set_audioSources [] s in
  set_nextStartTime 0%Q s.

(** ** The live session callback ([App.tsx], lines 310-344) *)

(** [serverContent.modelTurn] as far as the callback reads it. *)
Inductive ModelTurn : Set :=
  | WithoutParts                       (* a [modelTurn] that has no [parts] *)
  | WithParts (data : option string).  (* [parts[0]?.inlineData?.data] *)

(** The fields of a [LiveServerMessage] the callback reads. *)
Record LiveServerMessage : Set := mkServerMessage {
  modelTurn : option ModelTurn;
  outputTranscription : option string;
  inputTranscription : option string;
  turnComplete : bool;
  interrupted : bool
}.

(** JavaScript truthiness of an optional string. *)
Definition truthy (o : option string) : option string :=
  match o with
  | Some t => if bool_decide (t = "") then None else Some t
  | None => None
  end.

(** Lines 316-320: a delta of the model's transcript. *)
Definition onOutputTranscription (newId : string) (outputTrans : string)
    (s : State) : State :=
  let s := set_currentOutputTrans (currentOutputTrans s +:+ outputTrans) s in
  set_messages
    (updateLiveMessage newId model (currentOutputTrans s) (messages s)) s.

(** Lines 322-326: a delta of the user's transcript. *)
Definition onInputTranscription (newId : string) (inputTrans : string)
    (s : State) : State :=
  let s := set_currentInputTrans (currentInputTrans s +:+ inputTrans) s in
  set_messages
    (updateLiveMessage newId user (currentInputTrans s) (messages s)) s.

(** Lines 329-332. *)
Definition finalizeOutput (s : State) : State :=
  if bool_decide (currentOutputTrans s = "") then s
  else
    let s :=
      set_messages
        (finalizeMessage model (currentOutputTrans s) (messages s)) s in
    set_currentOutputTrans "" s.

(** Lines 333-336. *)
Definition finalizeInput (s : State) : State :=
  if bool_decide (currentInputTrans s = "") then s
  else
    let s :=
      set_messages
        (finalizeMessage user (currentInputTrans s) (messages s)) s in
    set_currentInputTrans "" s.

(** Lines 328-337: the turn is complete. *)
Definition onTurnComplete (s : State) : State :=
  finalizeInput (finalizeOutput s).

(** Lines 339-343: the model's turn was interrupted. *)
Definition onInterrupted (s : State) : State :=
  let s := stopAllAudio s in
  let s := set_currentOutputTrans "" s in
  set_avatarPose LISTENING_SIDE s.

Definition whenSome {A : Type} (o : option A) (f : A → State → State)
    (s : State) : State :=
  match o with Some a => f a s | None => s end.

Definition whenTrue (b : bool) (f : State → State) (s : State) : State :=
  if b then f s else s.

(** Line 311, [msg.serverContent?.modelTurn?.parts[0]?.inlineData?.data].
    The chain guards [modelTurn] but not [parts]: on a [modelTurn] without
    [parts] the index [[0]] throws a TypeError ([None]).  Otherwise it
    yields the value read, [undefined] included. *)
Definition inlineData (msg : LiveServerMessage) : option (option string) :=
  match modelTurn msg with
  | None => Some None
  | Some WithoutParts => None
  | Some (WithParts data) => Some data
  end.

(** Lines 312-343: the five blocks in the order of the source, given the
    [base64Audio] read at line 311.  [idOut] and [idIn] are the two
    [Date.now().toString()] readings. *)
Definition blocks (base64Audio : option string) (idOut idIn : string)
    (msg : LiveServerMessage) (s : State) : State :=
  let s := whenSome (truthy base64Audio) playAudioChunk s in
  let s := whenSome (truthy (outputTranscription msg))
             (onOutputTranscription idOut) s in
  let s := whenSome (truthy (inputTranscription msg))
             (onInputTranscription idIn) s in
  let s := whenTrue (turnComplete msg) onTurnComplete s in
  whenTrue (interrupted msg) onInterrupted s.

(** [onmessage].  A TypeError at line 311 ends the callback before any of
    its effects. *)
Definition onmessage (idOut idIn : string) (msg : LiveServerMessage)
    (s : State) : State :=
  match inlineData msg with
  | Some base64Audio => blocks base64Audio idOut idIn msg s
  | None => s
  end.

(** [disconnectLive] (lines 367-381); releasing the microphone stream and
    the script processor leaves the modelled state alone. *)
Definition disconnectLive (s : State) : State :=
  set_avatarPose IDLE_FRONT (stopAllAudio s).

(** The voice-activity branch of [onaudioprocess] (lines 304-307), taken
    when the block's RMS exceeds 0.02. *)
Definition voiceDetected (s : State) : State :=
  resetIdleTimer (set_avatarPose LISTENING_SIDE s).

(** ** The machine: one step per callback *)

Inductive Event : Type :=
  (* the live session delivers a message *)
  | ServerMessage (idOut idIn : string) (msg : LiveServerMessage)
  (* the decode promise of the [i]-th suspended [playAudioChunk] settles *)
  | DecodeSettled (i : nat) (outcome : option AudioBuffer) (currentTime : Q)
  (* a source node fires [onended] *)
  | SourceEnded (n : nat)
  | IdleTimerFired
  | VoiceDetected
  (* [disconnectLive], from the button, [onerror] or [sendTextMessage] *)
  | Disconnect
  (* [sendTextMessage]: [addMessage(role, text, true)] *)
  | TextMessage (newId : string) (r : Role) (t : string)
  (* [sendTextMessage]: [playAudioChunk] on the synthesized reply *)
  | TtsAudio (base64Audio : string)
  (* the other [setAvatarPose] calls (connecting, opened, closed, text mode) *)
  | PoseSet (p : AvatarPose).

Definition step (s : State) (e : Event) : State :=
  match e with
  | ServerMessage idOut idIn msg => onmessage idOut idIn msg s
  | DecodeSettled i outcome currentTime =>
      playAudioChunk_resume i outcome currentTime s
  | SourceEnded n => sourceEnded n s
  | IdleTimerFired => idleTimerFired s
  | VoiceDetected => voiceDetected s
  | Disconnect => disconnectLive s
  | TextMessage newId r t =>
      set_messages (addMessage newId r t true (messages s)) s
  | TtsAudio base64Audio => playAudioChunk base64Audio s
  | PoseSet p => set_avatarPose p s
  end.

Definition run (s : State) (tr : list Event) : State := foldl step s tr.

Inductive reachable : State → Prop :=
  | reachable_initial : reachable initial
  | reachable_step s e : reachable s → reachable (step s e).

(** ** The clock arithmetic in double precision

    JavaScript numbers are IEEE 754 binary64 values.  The scheduler above
    computes with exact rationals, which agrees with the code wherever a
    value is compared, chosen or added once; a sum of several durations
    is rounded by the code at every addition.  The lines of
    [playAudioChunk] that touch the clock are given here once more on
    doubles, with the operations of the standard library's reference
    implementation of the format. *)
Module Double.

Definition double : Set := spec_float.

Definition add : double → double → double := SFadd 53 1024.
Definition div : double → double → double := SFdiv 53 1024.
Definition ltb : double → double → bool := SFltb.

(** The double of an integer literal. *)
Definition ofZ (n : Z) : double := binary_normalize 53 1024 n 0 false.

(** The double of a decimal literal [n / d], the nearest to the
    quotient. *)
Definition literal (n d : Z) : double := div (ofZ n) (ofZ d).

(** Lines 155-161 of [playAudioChunk]: from [nextStartTimeRef.current],
    [ctx.currentTime] and [audioBuffer.duration] to the time handed to
    [source.start] and the new [nextStartTimeRef.current]. *)
Definition schedule (nextStartTime currentTime duration : double)
    : double * double :=
  let nextStartTime :=
    if ltb nextStartTime currentTime then currentTime else nextStartTime in
  (nextStartTime, add nextStartTime duration).

(** The same for a sequence of chunks, each with the clock reading at
    which it is scheduled and its duration: the times handed to
    [source.start], and [nextStartTimeRef.current] at the end. *)
Fixpoint plan (nextStartTime : double) (chunks : list (double * double))
    : list double * double :=
  match chunks with
  | [] => ([], nextStartTime)
  | (currentTime, duration) :: rest =>
      let scheduled := schedule nextStartTime currentTime duration in
      let planned := plan (snd scheduled) rest in
      (fst scheduled :: fst planned, snd planned)
  end.

End Double.

(** ** Vocabulary of the properties *)

(** The transcript accumulator of a role. *)
Definition accumulator (r : Role) (s : State) : string :=
  match r with
  | model => currentOutputTrans s
  | user => currentInputTrans s
  end.

(** [append]: the block that takes a transcript delta of role [r]. *)
Definition append (newId : string) (r : Role) (textDelta : string)
    (s : State) : State :=
  match r with
  | model => onOutputTranscription newId textDelta s
  | user => onInputTranscription newId textDelta s
  end.

(** [finalize]: the block of [onTurnComplete] for role [r]. *)
Definition finalize (r : Role) (s : State) : State :=
  match r with
  | model => finalizeOutput s
  | user => finalizeInput s
  end.

(** A chunk handed to the scheduler together with what the browser will
    answer: the decoded buffer and the clock reading at that moment. *)
Record Chunk : Set := mkChunk {
  chunk_data : string;
  chunk_buffer : AudioBuffer;
  chunk_now : Q
}.

(** [enqueue]: [playAudioChunk] on a chunk whose decode succeeds before
    anything else happens. *)
Definition enqueue (s : State) (c : Chunk) : State :=
  playAudioChunk_resume (length (decoding s)) (Some (chunk_buffer c))
    (chunk_now c) (playAudioChunk (chunk_data c) s).

Definition enqueueAll (s : State) (cs : list Chunk) : State :=
  foldl enqueue s cs.

(** Enqueued faster than realtime: every chunk is scheduled before the
    audio already planned has run out. *)
Fixpoint keepsAhead (s : State) (cs : list Chunk) : Prop :=
  match cs with
  | [] => True
  | c :: cs' => (chunk_now c <= nextStartTime s)%Q ∧ keepsAhead (enqueue s c) cs'
  end.

(** The messages that are final. *)
Definition finalized (s : State) : list ChatMessage :=
  filter (λ m, isFinal m = true) (messages s).


(** *** Transcripts *)

(** [m] sits at index [i] of [l] where no updater may touch it: before
    the last element, or final. *)
Definition settled (l : list ChatMessage) (i : nat) (m : ChatMessage) : Prop :=
  l !! i = Some m ∧ (i + 1 < length l ∨ isFinal m = true).

(** The messages of a role, in list order. *)
Definition messagesOf (r : Role) (l : list ChatMessage) : list ChatMessage :=
  filter (λ m, role m = r) l.





(** Two messages that differ at most in the text of an open message of
    the model. *)
Definition sameButDraft (m1 m2 : ChatMessage) : Prop :=
  id m1 = id m2 ∧ role m1 = role m2 ∧ isFinal m1 = isFinal m2 ∧
  (text m1 = text m2 ∨ (role m1 = model ∧ isFinal m1 = false)).

(** Everything of a state but its message list. *)
Definition besidesMessages (s : State) : State := set_messages [] s.

(** Two states that differ at most in the text of open messages of the
    model. *)
Definition sameButDrafts (s1 s2 : State) : Prop :=
  Forall2 sameButDraft (messages s1) (messages s2) ∧
  besidesMessages s1 = besidesMessages s2.

(** Two states that differ at most in the model's draft: its accumulator
    and the text of its open messages. *)
Definition sameButRemoteBuffer (s1 s2 : State) : Prop :=
  sameButDrafts (set_currentOutputTrans "" s1) (set_currentOutputTrans "" s2).

(** A handler respects [sameButDrafts] when it takes two such states to
    two such states. *)
Definition respectsDrafts (f : State → State) : Prop :=
  ∀ s1 s2, sameButDrafts s1 s2 → sameButDrafts (f s1) (f s2).

(** *** The scheduler *)

(** The start time [scheduleSource] passes to [source.start]. *)
Definition planStart (s : State) (currentTime : Q) : Q :=
  if Qlt_le_dec (nextStartTime s) currentTime then currentTime
  else nextStartTime s.

(** The source node a successful decode starts. *)
Definition newSource (d : string) (b : AudioBuffer) (now : Q) (s : State)
    : AudioBufferSourceNode :=
  mkSource (created s) d b (planStart s now).

(** Units laid one after the other from [next] on: each starts no earlier
    than its predecessor ends. *)
Fixpoint laidFrom (next : Q) (units : list AudioBufferSourceNode) : Prop :=
  match units with
  | [] => True
  | m :: units' => (next <= node_when m)%Q ∧ laidFrom (node_end m) units'
  end.

(** The same without gaps: each starts exactly when its predecessor ends. *)
Fixpoint abutFrom (next : Q) (units : list AudioBufferSourceNode) : Prop :=
  match units with
  | [] => True
  | m :: units' => node_when m = next ∧ abutFrom (node_end m) units'
  end.

Fixpoint endFrom (next : Q) (units : list AudioBufferSourceNode) : Q :=
  match units with
  | [] => next
  | m :: units' => endFrom (node_end m) units'
  end.


(** [m] is over before [n] begins. *)
Definition endsBefore (m n : AudioBufferSourceNode) : Prop :=
  (node_end m <= node_when n)%Q.

(** The scheduler invariant: the active units are in scheduling order, one
    over before the next begins, and all over by [nextStartTime]. *)
Definition laidOut (s : State) : Prop :=
  StronglySorted endsBefore (audioSources s) ∧
  Forall (λ m, (node_end m <= nextStartTime s)%Q) (audioSources s).

(** Every source that was ever started is in the active set, has ended,
    or has been stopped. *)
Definition accounted (s : State) : Prop :=
  ∀ n, n ∈ started s →
    n ∈ audioSources s ∨ node_id n ∈ ended s ∨ node_id n ∈ stopped s.

(** Two states that differ at most in what was written to the console. *)
Definition sameButConsole (s1 s2 : State) : Prop :=
  set_console [] s1 = set_console [] s2.

(** [playAudioChunk] on a chunk whose decode fails before anything else
    happens. *)
Definition enqueueFailing (base64Audio : string) (currentTime : Q)
    (s : State) : State :=
  playAudioChunk_resume (length (decoding s)) None currentTime
    (playAudioChunk base64Audio s).

(** *** Arrival order and play order *)

(** The chunk a server message hands to [playAudioChunk], if any. *)
Definition chunkOf (msg : LiveServerMessage) : option string :=
  inlineData msg ≫= truthy.

(** The message gets past line 311 and is flagged [interrupted]: its last
    block runs. *)
Definition cancels (msg : LiveServerMessage) : bool :=
  match inlineData msg with
  | Some _ => interrupted msg
  | None => false
  end.

(** The chunks a trace hands to [playAudioChunk], in arrival order. *)
Definition arrivalOf (e : Event) : list string :=
  match e with
  | ServerMessage _ _ msg => option_list (chunkOf msg)
  | TtsAudio base64Audio => [base64Audio]
  | _ => []
  end.

Definition arrivals (tr : list Event) : list string :=
  concat (map arrivalOf tr).

(** The chunks of the sources started so far, in the order of their
    [source.start] calls. *)
Definition playOrder (s : State) : list string := map node_chunk (started s).

(** Playback follows arrival: the chunks that were started, in the order
    they were started, are chunks of the trace in the order they arrived. *)
Definition playedInArrivalOrder (tr : list Event) : Prop :=
  playOrder (run initial tr) `sublist_of` arrivals tr.

(** Decodes settle in arrival order: it is always the oldest suspended
    call that resumes. *)
Definition settlesOldest (e : Event) : Prop :=
  match e with
  | DecodeSettled i _ _ => i = 0
  | _ => True
  end.

(** *** The interruption as the design document has it *)

(** Handling [e] at [s] silences what was enqueued before it: as long as
    no new chunk arrives, nothing is active afterwards. *)
Definition silences (e : Event) (s : State) : Prop :=
  ∀ tr, arrivals tr = [] → audioSources (run (step s e) tr) = [].

(** Handling [e] at [s] discards the model's draft: no final message of
    any later state depends on what the draft held. *)
Definition discardsDraft (e : Event) (s : State) : Prop :=
  ∀ s2 tr, sameButRemoteBuffer s s2 →
    finalized (run (step s2 e) tr) = finalized (run (step s e) tr).

(** *** [append] as the design document has it *)



(** *** Sample inputs *)

Definition inputDelta (newId t : string) : Event :=
  ServerMessage "" newId (mkServerMessage None None (Some t) false false).

Definition outputDelta (newId t : string) : Event :=
  ServerMessage newId "" (mkServerMessage None (Some t) None false false).

Definition turnCompleted : Event :=
  ServerMessage "" "" (mkServerMessage None None None true false).

Definition audioMessage (base64Audio : string) : Event :=
  ServerMessage "" ""
    (mkServerMessage (Some (WithParts (Some base64Audio))) None None false
       false).

Definition pcm (n : N) : AudioBuffer := mkBuffer n 24000.

Definition halfSecond : Chunk := mkChunk "AAAA" (pcm 12000) 7.
Definition threeTenths : Chunk := mkChunk "BBBB" (pcm 7200) 7.
Definition oneFifth : Chunk := mkChunk "CCCC" (pcm 4800) 7.

Definition overtaking : list Event :=
  [audioMessage "AAAA"; audioMessage "BBBB";
   DecodeSettled 1 (Some (pcm 7200)) 7;
   DecodeSettled 0 (Some (pcm 12000)) 7].

(** *** Tactics *)

Ltac qle_by_computation := vm_compute; intros Hgt; discriminate Hgt.

(** ** Vocabulary of the further properties *)

(** *** Transcripts *)

(** The transcript field of a server message for a role. *)
Definition transcription (r : Role) (msg : LiveServerMessage) : option string :=
  match r with
  | model => outputTranscription msg
  | user => inputTranscription msg
  end.

(** The transcript delta of a role that an event brings as far as the
    role's block, [""] if none: a server message that throws at line 311
    brings none. *)
Definition deltaOf (r : Role) (e : Event) : string :=
  match e with
  | ServerMessage _ _ msg =>
      match inlineData msg with
      | Some _ => default "" (truthy (transcription r msg))
      | None => ""
      end
  | _ => ""
  end.

(** The deltas of a role along a trace, joined in arrival order. *)
Definition deltasOf (r : Role) (tr : list Event) : string :=
  foldr (λ e rest, deltaOf r e +:+ rest) "" tr.

(** An event of a live session that is no turn boundary: no message typed
    in text mode, no server message flagged [turnComplete] or
    [interrupted]. *)
Definition withinTurn (e : Event) : Prop :=
  match e with
  | ServerMessage _ _ msg => turnComplete msg = false ∧ interrupted msg = false
  | TextMessage _ _ _ => False
  | _ => True
  end.

(** The text of the most recent message of a role. *)
Definition shown (r : Role) (s : State) : option string :=
  text <$> last (messagesOf r (messages s)).

(** What the chat shows of a role is what its accumulator holds. *)
Definition showsAccumulator (r : Role) (s : State) : Prop :=
  (accumulator r s = "" ∧ messagesOf r (messages s) = []) ∨
  (accumulator r s ≠ "" ∧ shown r s = Some (accumulator r s)).

(** A role's accumulator, when it holds text, is what the role's most
    recent message shows. *)
Definition showsDraft (r : Role) (s : State) : Prop :=
  accumulator r s ≠ "" → shown r s = Some (accumulator r s).

(** A message typed in text mode is not empty. *)
Definition typedNonEmpty (e : Event) : Prop :=
  match e with
  | TextMessage _ _ t => t ≠ ""
  | _ => True
  end.

(** What identifies a message in the rendered list. *)
Definition identity (m : ChatMessage) : string * Role := (id m, role m).

(** *** The scheduler *)

(** An event that leaves the planned audio alone: neither
    [disconnectLive] nor a server message flagged [interrupted]. *)
Definition keepsAudio (e : Event) : Prop :=
  match e with
  | ServerMessage _ _ msg => interrupted msg = false
  | Disconnect => False
  | _ => True
  end.

(** The bookkeeping of source nodes: identities are given out in order,
    the active sources are started sources, and [stop] and [onended] are
    only recorded for identities given out. *)
Definition wellKept (s : State) : Prop :=
  node_id <$> started s = seq 0 (created s) ∧
  audioSources s `sublist_of` started s ∧
  Forall (λ k, k < created s) (stopped s).

(** Clock values the scheduler has produced are never negative. *)
Definition nonNegative (s : State) : Prop :=
  (0 <= nextStartTime s)%Q ∧ Forall (λ n, (0 <= node_when n)%Q) (started s).

(** ** The application around the live session ([App.tsx]) *)

(** The React state and the refs of [App] that the session state above
    leaves out. *)
Record App : Type := mkApp {
  session : State;
  isLiveConnected : bool;
  isMicOn : bool;
  isLoading : bool;
  error : option string;
  streamRef : bool;            (* a microphone stream is held *)
  scriptProcessorRef : bool    (* a script processor is held *)
}.

Definition initialApp : App :=
  mkApp initial false false false None false false.

Definition on_session (f : State → State) (a : App) : App :=
  mkApp (f (session a)) (isLiveConnected a) (isMicOn a) (isLoading a)
    (error a) (streamRef a) (scriptProcessorRef a).

Definition set_isLoading (v : bool) (a : App) : App :=
  mkApp (session a) (isLiveConnected a) (isMicOn a) v (error a)
    (streamRef a) (scriptProcessorRef a).

Definition set_error (v : option string) (a : App) : App :=
  mkApp (session a) (isLiveConnected a) (isMicOn a) (isLoading a) v
    (streamRef a) (scriptProcessorRef a).

Definition set_connected (connected mic : bool) (a : App) : App :=
  mkApp (session a) connected mic (isLoading a) (error a)
    (streamRef a) (scriptProcessorRef a).

Definition set_capture (stream processor : bool) (a : App) : App :=
  mkApp (session a) (isLiveConnected a) (isMicOn a) (isLoading a) (error a)
    stream processor.

(** [x || fallback] on an optional string. *)
Definition orElse (x : option string) (fallback : string) : string :=
  default fallback (truthy x).

(** [disconnectLive] (lines 367-381) with the refs and flags it resets. *)
Definition disconnectLiveApp (a : App) : App :=
  let a := set_capture false false a in
  let a := on_session stopAllAudio a in
  let a := set_connected false false a in
  on_session (set_avatarPose IDLE_FRONT) a.

(** [connectLive] up to [await getUserMedia] (lines 251-261). *)
Definition connectLive (API_KEY : string) (a : App) : App :=
  if bool_decide (API_KEY = "") then a
  else
    let a := set_isLoading true a in
    let a := on_session (set_avatarPose THINKING_GHOST) a in
    set_error None a.

(** [connectLive] after [getUserMedia] resolved (lines 262-357): the
    stream and the processor are kept, the session is being opened. *)
Definition mediaGranted (a : App) : App := set_capture true true a.

(** What a [catch] clause is handed: the value a promise was rejected
    with or a statement threw. *)
Inductive Thrown : Set :=
  | Undefined
  | Null
  | ErrorObject (message : option string).   (* anything that has properties *)

(** What [console.error(e)] shows of it: an object by its message. *)
Definition shownAs (e : Thrown) : string :=
  match e with
  | Undefined => "undefined"
  | Null => "null"
  | ErrorObject message => default "" message
  end.

(** [connectLive], the [catch] clause (lines 359-364). *)
Definition connectFailed (e : Thrown) (a : App) : App :=
  let a := on_session (λ s, set_console (console s ++ [shownAs e]) s) a in
  let a := set_error (Some "Could not access microphone or connect.") a in
  let a := set_isLoading false a in
  on_session (set_avatarPose IDLE_FRONT) a.

(** The [onopen] callback (lines 285-290). *)
Definition onopen (a : App) : App :=
  let a := set_connected true true a in
  let a := set_isLoading false a in
  on_session (set_avatarPose IDLE_FRONT) a.

(** The [onclose] callback (lines 345-350). *)
Definition onclose (a : App) : App :=
  let a := set_connected false false a in
  on_session (set_avatarPose IDLE_FRONT) a.

(** The [onerror] callback (lines 351-355). *)
Definition onerror (a : App) : App :=
  let a := on_session (λ s, set_console (console s ++ ["Live Error"]) s) a in
  set_error (Some "Live session disconnected.") (disconnectLiveApp a).

(** [handleMicToggle] (lines 419-425), up to the first [await]. *)
Definition handleMicToggle (API_KEY : string) (a : App) : App :=
  if isMicOn a then disconnectLiveApp a else connectLive API_KEY a.

(** How a request to the service settles. *)
Inductive Settled (A : Type) : Type :=
  | Fulfilled (value : A)
  | Rejected (e : Thrown).
Arguments Fulfilled {A} value.
Arguments Rejected {A} e.

(** What the outside world answers during one [sendTextMessage]: the two
    identifiers [addMessage] makes, the text reply ([.text] of the
    response), the audio of the synthesized reply (the optional chain down
    to [inlineData.data]), and for [playAudioChunk] the decoded buffer and
    the clock reading. *)
Record TextExchange : Type := mkExchange {
  userId : string;
  modelId : string;
  generated : Settled (option string);
  synthesized : Settled (option string);
  decoded : option AudioBuffer;
  decodedAt : Q
}.

(** [await playAudioChunk(base64Audio)]: the call and its continuation. *)
Definition playAudioChunkAwaited (base64Audio : string)
    (outcome : option AudioBuffer) (currentTime : Q) (s : State) : State :=
  playAudioChunk_resume (length (decoding s)) outcome currentTime
    (playAudioChunk base64Audio s).

(** [sendTextMessage], the [catch] clause (lines 241-243).  On
    [undefined] and [null] reading [e.message] throws a TypeError, so
    [setError] is not reached (the [finally] clause runs all the same). *)
Definition requestFailed (e : Thrown) (a : App) : App :=
  let a := on_session (λ s, set_console (console s ++ [shownAs e]) s) a in
  match e with
  | ErrorObject message =>
      set_error (Some (orElse message "Error generating response")) a
  | Undefined | Null => a
  end.

(** [sendTextMessage], the [try] block (lines 206-239). *)
Definition exchange (x : TextExchange) (a : App) : App :=
  match generated x with
  | Rejected e => requestFailed e a
  | Fulfilled reply =>
      let responseText := orElse reply "I'm not sure what to say." in
      let a :=
        on_session
          (λ s, set_messages
                  (addMessage (modelId x) model responseText true (messages s))
                  s) a in
      match synthesized x with
      | Rejected e => requestFailed e a
      | Fulfilled audio =>
          match truthy audio with
          | Some base64Audio =>
              on_session
                (playAudioChunkAwaited base64Audio (decoded x) (decodedAt x)) a
          | None => a
          end
      end
  end.

(** [sendTextMessage] (lines 192-248), run from its first line to its
    last with no other callback in between. *)
Definition sendTextMessage (API_KEY : string) (x : TextExchange)
    (text : string) (a : App) : App :=
  if bool_decide (API_KEY = "") then set_error (Some "API Key missing") a
  else
    let a := if isLiveConnected a then disconnectLiveApp a else a in
    let a :=
      on_session
        (λ s, set_messages (addMessage (userId x) user text true (messages s)) s)
        a in
    let a := set_isLoading true a in
    let a := on_session (set_avatarPose THINKING_GHOST) a in
    let a := exchange x a in
    let a := set_isLoading false a in
    on_session (set_avatarPose IDLE_FRONT) a.

(** The callbacks of the application, one step each. *)
Inductive AppEvent : Type :=
  | Session (e : Event)                 (* a callback of the session state *)
  | MicToggled
  | MediaGranted
  | ConnectFailed (e : Thrown)
  | Opened
  | Closed
  | Errored
  | TextSent (x : TextExchange) (text : string).

Definition appStep (API_KEY : string) (a : App) (e : AppEvent) : App :=
  match e with
  | Session e => on_session (λ s, step s e) a
  | MicToggled => handleMicToggle API_KEY a
  | MediaGranted => mediaGranted a
  | ConnectFailed e => connectFailed e a
  | Opened => onopen a
  | Closed => onclose a
  | Errored => onerror a
  | TextSent x text => sendTextMessage API_KEY x text a
  end.

Definition appRun (API_KEY : string) (a : App) (tr : list AppEvent) : App :=
  foldl (appStep API_KEY) a tr.

(** ** Cropping an avatar image ([App.tsx], lines 54-100, and the second
    version of [App]) *)

(** The result of a JavaScript division of two counts. *)
Inductive JsNumber : Set :=
  | Finite (q : Q)
  | PlusInfinity
  | NotANumber.

Definition divide (a b : N) : JsNumber :=
  match b, a with
  | N0, N0 => NotANumber
  | N0, _ => PlusInfinity
  | _, _ => Finite (inject_Z (Z.of_N a) / inject_Z (Z.of_N b))
  end.

Definition greaterThan (x : JsNumber) (q : Q) : bool :=
  match x with
  | Finite p => if Qlt_le_dec q p then true else false
  | PlusInfinity => true
  | NotANumber => false
  end.

Definition lessThan (x : JsNumber) (q : Q) : bool :=
  match x with
  | Finite p => if Qlt_le_dec p q then true else false
  | PlusInfinity => false
  | NotANumber => false
  end.

(** [Math.round]: the nearest integer, halves upwards. *)
Definition Math_round (x : Q) : Z := Qfloor (x + (1 # 2)).

(** [AVATAR_ASPECT = 320 / 384]; the second version has [640 / 768]. *)
Definition AVATAR_ASPECT : Q := 320 # 384.

(** The source rectangle handed to [drawImage]. *)
Record CropRect : Set := mkCrop { sx : Z; sy : Z; sw : Z; sh : Z }.

(** [cropAndResizeDataUrl]: the rectangle computed from the image's
    width [iw] and height [ih]. *)
Definition cropRect (iw ih : N) : CropRect :=
  let srcAspect := divide iw ih in
  if greaterThan srcAspect AVATAR_ASPECT then
    let sw := Math_round (inject_Z (Z.of_N ih) * AVATAR_ASPECT) in
    let sx := Math_round (inject_Z (Z.of_N iw - sw) / 2) in
    mkCrop sx 0 sw (Z.of_N ih)
  else if lessThan srcAspect AVATAR_ASPECT then
    let sh := Math_round (inject_Z (Z.of_N iw) / AVATAR_ASPECT) in
    let maxShift := (Z.of_N ih - sh)%Z in
    let bias := 18 # 100 in
    let sy := Math_round (inject_Z maxShift * bias) in
    mkCrop 0 sy (Z.of_N iw) sh
  else mkCrop 0 0 (Z.of_N iw) (Z.of_N ih).

(** [normalizeAvatarFile] of the second version: [None] is the thrown
    ['Invalid image dimensions']. *)
Definition normalizedCrop (srcW srcH : N) : option CropRect :=
  if bool_decide (srcW = 0%N ∨ srcH = 0%N) then None
  else
    let srcAspect := divide srcW srcH in
    if greaterThan srcAspect (640 # 768) then
      let cropH := Z.of_N srcH in
      let cropW := Math_round (inject_Z cropH * (640 # 768)) in
      let cropX := Math_round (inject_Z (Z.of_N srcW - cropW) / 2) in
      Some (mkCrop cropX 0 cropW cropH)
    else if lessThan srcAspect (640 # 768) then
      let cropW := Z.of_N srcW in
      let cropH := Math_round (inject_Z cropW / (640 # 768)) in
      let maxY := Z.max 0 (Z.of_N srcH - cropH) in
      let bias := 18 # 100 in
      let cropY := Math_round (inject_Z maxY * bias) in
      Some (mkCrop 0 cropY cropW cropH)
    else Some (mkCrop 0 0 (Z.of_N srcW) (Z.of_N srcH)).

(** ** The frequency bars ([Visualizer], the [draw] callback) *)

Inductive FillStyle : Set :=
  | Fade                    (* 'rgba(15, 23, 42, 0.2)' *)
  | Rgb (r g b : Q).

(** One [fillRect] call with the [fillStyle] in force. *)
Record FillRect : Set := mkRect {
  fillStyle : FillStyle;
  rect_x : Q;
  rect_y : Q;
  rect_w : Q;
  rect_h : Q
}.

Definition ofNat (n : nat) : Q := inject_Z (Z.of_nat n).

(** An element of the [Uint8Array]. *)
Definition byteValue (d : Byte.byte) : Q := inject_Z (Z.of_N (Byte.to_N d)).

(** The [for] loop of [draw], from index [i] and abscissa [x] on. *)
Fixpoint bars (bufferLength : nat) (barWidth height : Q) (i : nat) (x : Q)
    (dataArray : list Byte.byte) : list FillRect :=
  match dataArray with
  | [] => []
  | d :: rest =>
      let barHeight := (byteValue d / 2)%Q in
      let r := (barHeight + 25 * (ofNat i / ofNat bufferLength))%Q in
      let g := (250 * (ofNat i / ofNat bufferLength))%Q in
      let b := 50%Q in
      mkRect (Rgb r g b) x (height - barHeight) barWidth barHeight
        :: bars bufferLength barWidth height (S i) (x + (barWidth + 1)) rest
  end.

(** [draw]: the rectangles of one frame, for a canvas of the given size
    and the frequency data just read. *)
Definition draw (width height : N) (dataArray : list Byte.byte)
    : list FillRect :=
  let w := inject_Z (Z.of_N width) in
  let h := inject_Z (Z.of_N height) in
  let bufferLength := length dataArray in
  let barWidth := (w / ofNat bufferLength * (25 # 10))%Q in
  mkRect Fade 0 0 w h :: bars bufferLength barWidth h 0 0 dataArray.

(** ** Vocabulary of the properties of the application *)

(** A callback of the application that is not one of the session state. *)
Definition shellEvent (e : AppEvent) : Prop :=
  match e with
  | Session _ => False
  | _ => True
  end.

(** The rejection that takes an exchange to its [catch] clause, if any. *)
Definition rejection (x : TextExchange) : option Thrown :=
  match generated x with
  | Rejected e => Some e
  | Fulfilled _ =>
      match synthesized x with
      | Rejected e => Some e
      | Fulfilled _ => None
      end
  end.

(** The model's message an exchange adds, if the first request is
    answered. *)
Definition replyOf (x : TextExchange) : list ChatMessage :=
  match generated x with
  | Fulfilled reply =>
      [mkMsg (modelId x) model (orElse reply "I'm not sure what to say.") true]
  | Rejected _ => []
  end.

(** The chunk of an exchange that reaches [source.start], with its
    buffer, if any. *)
Definition spoken (x : TextExchange) : option (string * AudioBuffer) :=
  match generated x, synthesized x with
  | Fulfilled _, Fulfilled audio =>
      match truthy audio, decoded x with
      | Some base64Audio, Some audioBuffer => Some (base64Audio, audioBuffer)
      | _, _ => None
      end
  | _, _ => None
  end.

(** Sample inputs. *)
Definition answered : TextExchange :=
  mkExchange "1" "2" (Fulfilled (Some "hello")) (Fulfilled (Some "UklGRg"))
    (Some (pcm 12000)) 3.

Definition liveApp : App :=
  mkApp (run initial [audioMessage "AAAA"; DecodeSettled 0 (Some (pcm 12000)) 1;
                      outputDelta "10" "hel"; audioMessage "BBBB"])
    true true false None true true.

(** * Properties *)

(** ** The message list: the two updaters seen from the end of the list *)

Section LastElement.
Context {A : Type}.
Implicit Types (l : list A) (x y : A).

Lemma lookup_last_snoc l x : (l ++ [x]) !! (length (l ++ [x]) - 1) = Some x.
Proof.
  rewrite length_app; simpl.
  replace (length l + 1 - 1) with (length l) by lia.
  by apply list_lookup_middle.
Qed.

Lemma insert_last_snoc l x y :
  <[length (l ++ [x]) - 1 := y]> (l ++ [x]) = l ++ [y].
Proof.
  rewrite length_app; simpl.
  replace (length l + 1 - 1) with (length l + 0) by lia.
  by rewrite insert_app_r.
Qed.

(** A list is empty or ends in an element. *)
Lemma snoc_view l : l = [] ∨ ∃ l' x, l = l' ++ [x].
Proof.
  induction l as [|x l _] using rev_ind; [by left|right; eauto].
Qed.

End LastElement.

Lemma updateLiveMessage_nil newId r t :
  updateLiveMessage newId r t [] = [mkMsg newId r t false].
Proof. done. Qed.

Lemma updateLiveMessage_snoc newId r t l m :
  updateLiveMessage newId r t (l ++ [m]) =
  if liveFor r (Some m)
  then l ++ [mkMsg (id m) (role m) t (isFinal m)]
  else (l ++ [m]) ++ [mkMsg newId r t false].
Proof.
  unfold updateLiveMessage.
  rewrite lookup_last_snoc, insert_last_snoc. done.
Qed.

Lemma finalizeMessage_snoc r t l m :
  finalizeMessage r t (l ++ [m]) =
  if liveFor r (Some m)
  then l ++ [mkMsg (id m) (role m) t true]
  else l ++ [m].
Proof.
  unfold finalizeMessage.
  rewrite lookup_last_snoc, insert_last_snoc. done.
Qed.

Lemma liveFor_Some r m :
  liveFor r (Some m) = true ↔ role m = r ∧ isFinal m = false.
Proof.
  simpl. rewrite andb_true_iff, bool_decide_eq_true, negb_true_iff. done.
Qed.

Lemma settled_snoc_inv l x i m :
  settled (l ++ [x]) i m →
  (i < length l ∧ l !! i = Some m) ∨ (i = length l ∧ x = m ∧ isFinal m = true).
Proof.
  intros [Hi Hs]. rewrite length_app in Hs; simpl in Hs.
  destruct (decide (i < length l)) as [Hlt|Hge].
  - left. split; [done|]. by rewrite lookup_app_l in Hi.
  - right. apply lookup_lt_Some in Hi as Hlen.
    rewrite length_app in Hlen; simpl in Hlen.
    assert (i = length l) as -> by lia.
    rewrite list_lookup_middle in Hi by done.
    destruct Hs as [?|?]; [lia|]. by simplify_eq.
Qed.

Lemma settled_app l l' i m : settled l i m → settled (l ++ l') i m.
Proof.
  intros [Hi Hs]. split.
  - by apply lookup_app_l_Some.
  - rewrite length_app. destruct Hs; [left; lia|by right].
Qed.

Lemma settled_prefix l y i m :
  i < length l → l !! i = Some m → settled (l ++ [y]) i m.
Proof.
  intros Hlt Hi. split.
  - by apply lookup_app_l_Some.
  - left. rewrite length_app; simpl; lia.
Qed.

Lemma updateLiveMessage_settled newId r t prev i m :
  settled prev i m → settled (updateLiveMessage newId r t prev) i m.
Proof.
  destruct (snoc_view prev) as [->|(l & x & ->)].
  { intros [Hi _]. done. }
  intros Hs. rewrite updateLiveMessage_snoc.
  destruct (liveFor r (Some x)) eqn:Hlive; [|by apply settled_app].
  apply liveFor_Some in Hlive as [_ Hopen].
  apply settled_snoc_inv in Hs as [[Hlt Hi]|(_ & -> & Hfin)]; [|congruence].
  by eapply settled_prefix.
Qed.

Lemma finalizeMessage_settled r t prev i m :
  settled prev i m → settled (finalizeMessage r t prev) i m.
Proof.
  destruct (snoc_view prev) as [->|(l & x & ->)]; [done|].
  intros Hs. rewrite finalizeMessage_snoc.
  destruct (liveFor r (Some x)) eqn:Hlive; [|done].
  apply liveFor_Some in Hlive as [_ Hopen].
  apply settled_snoc_inv in Hs as [[Hlt Hi]|(_ & -> & Hfin)]; [|congruence].
  by eapply settled_prefix.
Qed.

Lemma addMessage_settled newId r t fin prev i m :
  settled prev i m → settled (addMessage newId r t fin prev) i m.
Proof. apply settled_app. Qed.

(** ** How each handler moves the message list *)

Lemma messages_append newId r d s :
  messages (append newId r d s) =
  updateLiveMessage newId r (accumulator r s +:+ d) (messages s).
Proof. by destruct r. Qed.

Lemma accumulator_append newId r d s :
  accumulator r (append newId r d s) = accumulator r s +:+ d.
Proof. by destruct r. Qed.

Lemma messages_finalize r s :
  messages (finalize r s) =
  if bool_decide (accumulator r s = "") then messages s
  else finalizeMessage r (accumulator r s) (messages s).
Proof. destruct r; simpl; unfold finalizeOutput, finalizeInput; by case_bool_decide. Qed.

Lemma accumulator_finalize r s : accumulator r (finalize r s) = "".
Proof.
  destruct r; simpl; unfold finalizeOutput, finalizeInput;
    by case_bool_decide.
Qed.

Lemma messages_resume i o now s :
  messages (playAudioChunk_resume i o now s) = messages s.
Proof.
  unfold playAudioChunk_resume. destruct (decoding s !! i); [|done].
  by destruct o.
Qed.

Lemma messages_idleTimerFired s : messages (idleTimerFired s) = messages s.
Proof. unfold idleTimerFired. by destruct (idleTimeout s). Qed.

(** A message that throws at line 311 leaves the state as it is. *)
Lemma onmessage_throws idOut idIn msg s :
  inlineData msg = None → onmessage idOut idIn msg s = s.
Proof. unfold onmessage. by intros ->. Qed.

(** The blocks of [onmessage], one after the other. *)
Lemma onmessage_blocks idOut idIn msg s base64Audio :
  inlineData msg = Some base64Audio →
  onmessage idOut idIn msg s =
  whenTrue (interrupted msg) onInterrupted
    (whenTrue (turnComplete msg) (λ s, finalize user (finalize model s))
       (whenSome (truthy (inputTranscription msg)) (append idIn user)
          (whenSome (truthy (outputTranscription msg)) (append idOut model)
             (whenSome (truthy base64Audio) playAudioChunk s)))).
Proof. unfold onmessage. by intros ->. Qed.

Lemma cancels_true msg base64Audio :
  inlineData msg = Some base64Audio → interrupted msg = true →
  cancels msg = true.
Proof. unfold cancels. by intros -> ->. Qed.

Lemma cancels_false msg : interrupted msg = false → cancels msg = false.
Proof. unfold cancels. intros ->. by destruct (inlineData msg). Qed.

(** What holds of the message list and is kept by the two updaters is
    kept by [onmessage]. *)
Lemma onmessage_messages_ind (P : list ChatMessage → Prop) idOut idIn msg s :
  (∀ newId r t l, P l → P (updateLiveMessage newId r t l)) →
  (∀ r t l, P l → P (finalizeMessage r t l)) →
  P (messages s) → P (messages (onmessage idOut idIn msg s)).
Proof.
  intros Hupd Hfin Hs.
  destruct (inlineData msg) as [base64Audio|] eqn:Hread;
    [|by rewrite onmessage_throws].
  rewrite (onmessage_blocks _ _ _ _ _ Hread).
  set (s1 := whenSome (truthy base64Audio) playAudioChunk s).
  assert (P (messages s1)) as H1.
  { subst s1. by destruct (truthy base64Audio). }
  set (s2 := whenSome (truthy (outputTranscription msg)) _ s1).
  assert (P (messages s2)) as H2.
  { subst s2.
    destruct (truthy (outputTranscription msg)); cbn [whenSome]; [|done].
    rewrite messages_append. by apply Hupd. }
  set (s3 := whenSome (truthy (inputTranscription msg)) _ s2).
  assert (P (messages s3)) as H3.
  { subst s3.
    destruct (truthy (inputTranscription msg)); cbn [whenSome]; [|done].
    rewrite messages_append. by apply Hupd. }
  set (s4 := whenTrue (turnComplete msg) _ s3).
  assert (P (messages s4)) as H4.
  { subst s4. destruct (turnComplete msg); cbn [whenTrue]; [|done].
    rewrite !messages_finalize. repeat case_bool_decide; auto. }
  by destruct (interrupted msg).
Qed.

Lemma onmessage_settled idOut idIn msg s i m :
  settled (messages s) i m → settled (messages (onmessage idOut idIn msg s)) i m.
Proof.
  apply (onmessage_messages_ind (λ l, settled l i m)).
  - intros. by apply updateLiveMessage_settled.
  - intros. by apply finalizeMessage_settled.
Qed.

Lemma step_settled s e i m :
  settled (messages s) i m → settled (messages (step s e)) i m.
Proof.
  destruct e; simpl; intros Hs.
  - by apply onmessage_settled.
  - by rewrite messages_resume.
  - done.
  - by rewrite messages_idleTimerFired.
  - done.
  - done.
  - by apply addMessage_settled.
  - done.
  - done.
Qed.

Lemma run_settled s tr i m :
  settled (messages s) i m → settled (messages (run s tr)) i m.
Proof.
  revert s. induction tr as [|e tr IH]; intros s Hs; [done|].
  simpl. apply IH. by apply step_settled.
Qed.

Lemma reachable_run s tr : reachable s → reachable (run s tr).
Proof.
  revert s. induction tr as [|e tr IH]; intros s Hs; [done|].
  simpl. by apply IH, reachable_step.
Qed.

(** ** Transcript operations *)







Lemma finalizeMessage_not_live r t prev :
  liveFor r (prev !! (length prev - 1)) = false → finalizeMessage r t prev = prev.
Proof.
  intros Hlive. unfold finalizeMessage.
  destruct (prev !! (length prev - 1)) as [m|] eqn:Hlast; [|done].
  by rewrite Hlive.
Qed.

Lemma finalizeMessage_closes r t prev :
  liveFor r (finalizeMessage r t prev
               !! (length (finalizeMessage r t prev) - 1)) = false.
Proof.
  destruct (snoc_view prev) as [->|(l & m & ->)]; [done|].
  rewrite finalizeMessage_snoc.
  destruct (liveFor r (Some m)) eqn:Hlive; rewrite lookup_last_snoc; [|done].
  simpl. by rewrite andb_false_r.
Qed.

Lemma finalize_empty r s : accumulator r s = "" → finalize r s = s.
Proof.
  destruct r; simpl; unfold finalizeOutput, finalizeInput; intros ->; done.
Qed.

Lemma finalized_count_finalizeMessage r t prev :
  length (filter (λ m, isFinal m = true) (finalizeMessage r t prev)) ≤
  S (length (filter (λ m, isFinal m = true) prev)).
Proof.
  destruct (snoc_view prev) as [->|(l & m & ->)]; [simpl; lia|].
  rewrite finalizeMessage_snoc.
  destruct (liveFor r (Some m)); [|lia].
  rewrite !filter_app, !length_app.
  rewrite (filter_cons_True _ (mkMsg _ _ _ true)) by done.
  simpl. lia.
Qed.

(** C7.  [finalize] for a role whose accumulator is empty returns the
    state it was given: message list, accumulators and everything else.
    [finalizeMessage] on a list that does not end in an open message of
    the role returns the list it was given.  Neither function returns a
    value.  Both are idempotent: a second call directly after the first
    changes nothing, so the two calls together mark at most one message
    final. *)
Theorem finalize_without_open_buffer_is_noop
    (r : Role) (s s' : State) (t t' : string) (prev prev' : list ChatMessage)
    (Hempty : accumulator r s = "")
    (Hclosed : liveFor r (prev !! (length prev - 1)) = false) :
  finalize r s = s ∧
  finalizeMessage r t prev = prev ∧
  finalize r (finalize r s') = finalize r s' ∧
  finalizeMessage r t' (finalizeMessage r t prev') = finalizeMessage r t prev' ∧
  length (finalized (finalize r (finalize r s'))) ≤ S (length (finalized s')).
Proof.
  split; [by apply finalize_empty|].
  split; [by apply finalizeMessage_not_live|].
  assert (finalize r (finalize r s') = finalize r s') as Hidem
    by apply finalize_empty, accumulator_finalize.
  split; [done|].
  split; [apply finalizeMessage_not_live, finalizeMessage_closes|].
  rewrite Hidem. unfold finalized. rewrite messages_finalize.
  case_bool_decide; [lia|apply finalized_count_finalizeMessage].
Qed.

Lemma finalize_without_open_buffer_is_noop_witness :
  let s := append "1" user "hi" initial in
  let prev := [mkMsg "1" user "hi" true] in
  accumulator model s = "" ∧
  liveFor model (prev !! (length prev - 1)) = false ∧
  finalize model s = s ∧
  finalizeMessage model "x" prev = prev ∧
  finalize user (finalize user s) = finalize user s.
Proof.
  intros s prev.
  split; [reflexivity|]. split; [reflexivity|].
  destruct (finalize_without_open_buffer_is_noop model s s "x" "y" prev prev
              eq_refl eq_refl) as (H1 & H2 & _).
  destruct (finalize_without_open_buffer_is_noop user initial s "x" "y" [] []
              eq_refl eq_refl) as (_ & _ & H3 & _).
  auto.
Defined.

(** C10.  A message that is not the last of the list, or that is final,
    is left as it is (same position; same [id], [role], [text] and
    [isFinal]) by [updateLiveMessage] and by [finalizeMessage], hence by
    [append] and [finalize], and by every later run of the machine. *)
Theorem transcript_operations_touch_only_last
    (newId : string) (r : Role) (t : string) (prev : list ChatMessage)
    (i : nat) (m : ChatMessage)
    (Hi : prev !! i = Some m)
    (Hsettled : i + 1 < length prev ∨ isFinal m = true) :
  updateLiveMessage newId r t prev !! i = Some m ∧
  finalizeMessage r t prev !! i = Some m ∧
  (∀ s, messages s = prev →
        messages (append newId r t s) !! i = Some m ∧
        messages (finalize r s) !! i = Some m) ∧
  (∀ s tr, messages s = prev → messages (run s tr) !! i = Some m).
Proof.
  assert (settled prev i m) as Hs by done.
  split; [apply updateLiveMessage_settled, Hs|].
  split; [apply finalizeMessage_settled, Hs|].
  split.
  - intros s <-. split.
    + rewrite messages_append. apply updateLiveMessage_settled, Hs.
    + rewrite messages_finalize. case_bool_decide; [done|].
      apply finalizeMessage_settled, Hs.
  - intros s tr <-. apply run_settled, Hs.
Qed.

Lemma transcript_operations_touch_only_last_witness :
  let first := mkMsg "1" user "hi" false in
  let prev := [first; mkMsg "2" model "hel" false] in
  prev !! 0 = Some first ∧
  updateLiveMessage "3" user "hi there" prev !! 0 = Some first ∧
  finalizeMessage model "hello" prev !! 0 = Some first.
Proof.
  intros first prev. split; [reflexivity|].
  destruct (transcript_operations_touch_only_last "3" user "hi there" prev 0
              first eq_refl (or_introl (le_n 2))) as (H1 & _).
  destruct (transcript_operations_touch_only_last "3" model "hello" prev 0
              first eq_refl (or_introl (le_n 2))) as (_ & H2 & _).
  auto.
Defined.

(** ** Turn completion and the open messages: what the code does *)

(** A turn-complete event with both accumulators empty does nothing. *)
Lemma onTurnComplete_no_buffers s :
  currentOutputTrans s = "" → currentInputTrans s = "" → onTurnComplete s = s.
Proof.
  intros Ho Hi. unfold onTurnComplete, finalizeOutput. rewrite Ho. simpl.
  unfold finalizeInput. by rewrite Hi.
Qed.

(** C6.  The user speaks ("hi"), the model answers ("hello"), the turn
    completes: both accumulators are emptied, the model's message becomes
    final, and the user's message stays [isFinal = false], since
    [finalizeMessage] for the user finds the model's message last. *)
Theorem turn_complete_finalizes_only_last_message :
  let before := run initial [inputDelta "1" "hi"; outputDelta "2" "hello"] in
  let after := step before turnCompleted in
  messages before =
    [mkMsg "1" user "hi" false; mkMsg "2" model "hello" false] ∧
  currentInputTrans before = "hi" ∧ currentOutputTrans before = "hello" ∧
  messages after =
    [mkMsg "1" user "hi" false; mkMsg "2" model "hello" true] ∧
  currentInputTrans after = "" ∧ currentOutputTrans after = "" ∧
  ∀ tr, messages (run after tr) !! 0 = Some (mkMsg "1" user "hi" false).
Proof.
  repeat split; try reflexivity.
  intros tr. apply run_settled. split; [reflexivity|left; simpl; lia].
Qed.

(** ** Open messages and their neighbours *)















(** ** The audio scheduler *)

Lemma planStart_max s now : (planStart s now == Qmax now (nextStartTime s))%Q.
Proof.
  unfold planStart. destruct (Qlt_le_dec (nextStartTime s) now) as [Hlt|Hle].
  - symmetry. apply Q.max_l. lra.
  - symmetry. by apply Q.max_r.
Qed.

Lemma planStart_ahead s now :
  (now <= nextStartTime s)%Q → planStart s now = nextStartTime s.
Proof.
  intros Hle. unfold planStart.
  destruct (Qlt_le_dec (nextStartTime s) now) as [Hlt|?]; [lra|done].
Qed.

Lemma planStart_ge_next s now : (nextStartTime s <= planStart s now)%Q.
Proof. unfold planStart. destruct (Qlt_le_dec _ _); lra. Qed.

Lemma duration_nonneg b : (0 <= duration b)%Q.
Proof. unfold duration, Qle. simpl. lia. Qed.

Lemma node_when_le_end n : (node_when n <= node_end n)%Q.
Proof. unfold node_end. pose proof (duration_nonneg (node_buffer n)). lra. Qed.

Section ScheduleSource.
Variables (d : string) (b : AudioBuffer) (now : Q) (s : State).

Lemma started_scheduleSource :
  started (scheduleSource d b now s) = started s ++ [newSource d b now s].
Proof. done. Qed.

Lemma audioSources_scheduleSource :
  audioSources (scheduleSource d b now s) =
  audioSources s ++ [newSource d b now s].
Proof. done. Qed.

Lemma nextStartTime_scheduleSource :
  nextStartTime (scheduleSource d b now s) = node_end (newSource d b now s).
Proof. done. Qed.

Lemma decoding_scheduleSource :
  decoding (scheduleSource d b now s) = decoding s.
Proof. done. Qed.
End ScheduleSource.

Lemma resume_success i b now s d :
  decoding s !! i = Some d →
  playAudioChunk_resume i (Some b) now s =
  scheduleSource d b now (set_decoding (delete i (decoding s)) s).
Proof. unfold playAudioChunk_resume. by intros ->. Qed.

Lemma resume_failure i now s d :
  decoding s !! i = Some d →
  playAudioChunk_resume i None now s =
  decodeFailed (set_decoding (delete i (decoding s)) s).
Proof. unfold playAudioChunk_resume. by intros ->. Qed.

Lemma resume_cases i o now s :
  (decoding s !! i = None ∧ playAudioChunk_resume i o now s = s) ∨
  (∃ d b, decoding s !! i = Some d ∧ o = Some b ∧
          playAudioChunk_resume i o now s =
          scheduleSource d b now (set_decoding (delete i (decoding s)) s)) ∨
  (∃ d, decoding s !! i = Some d ∧ o = None ∧
        playAudioChunk_resume i o now s =
        decodeFailed (set_decoding (delete i (decoding s)) s)).
Proof.
  unfold playAudioChunk_resume.
  destruct (decoding s !! i) as [d|]; [|by left]. right.
  destruct o as [b|]; [left|right]; eauto.
Qed.

Lemma delete_last_snoc {A} (l : list A) x : delete (length l) (l ++ [x]) = l.
Proof.
  induction l as [|y l IH]; [done|]. simpl. by rewrite IH.
Qed.

Lemma enqueue_unfold s c :
  enqueue s c =
  scheduleSource (chunk_data c) (chunk_buffer c) (chunk_now c)
    (set_decoding (decoding s) s).
Proof.
  unfold enqueue.
  rewrite (resume_success _ _ _ _ (chunk_data c)).
  - simpl. by rewrite delete_last_snoc.
  - simpl. by apply list_lookup_middle.
Qed.

Lemma started_enqueue s c :
  started (enqueue s c) =
  started s ++ [newSource (chunk_data c) (chunk_buffer c) (chunk_now c) s].
Proof. by rewrite enqueue_unfold. Qed.

Lemma audioSources_enqueue s c :
  audioSources (enqueue s c) =
  audioSources s ++ [newSource (chunk_data c) (chunk_buffer c) (chunk_now c) s].
Proof. by rewrite enqueue_unfold. Qed.

Lemma nextStartTime_enqueue s c :
  nextStartTime (enqueue s c) =
  node_end (newSource (chunk_data c) (chunk_buffer c) (chunk_now c) s).
Proof. by rewrite enqueue_unfold. Qed.

Lemma laidFrom_adjacent next units i m n :
  laidFrom next units → units !! i = Some m → units !! S i = Some n →
  (node_end m <= node_when n)%Q.
Proof.
  revert next i. induction units as [|u units IH]; intros next i; [done|].
  intros [_ Hrest] Hm Hn. destruct i as [|i].
  - destruct units as [|u' units]; simplify_eq/=. tauto.
  - simpl in Hm. by eapply IH.
Qed.

Lemma abutFrom_adjacent next units i m n :
  abutFrom next units → units !! i = Some m → units !! S i = Some n →
  node_end m = node_when n.
Proof.
  revert next i. induction units as [|u units IH]; intros next i; [done|].
  intros [_ Hrest] Hm Hn. destruct i as [|i].
  - destruct units as [|u' units]; simplify_eq/=.
    destruct Hrest as [Heq _]. by rewrite Heq.
  - simpl in Hm. by eapply IH.
Qed.

Lemma enqueueAll_units s cs :
  ∃ units,
    started (enqueueAll s cs) = started s ++ units ∧
    audioSources (enqueueAll s cs) = audioSources s ++ units ∧
    map node_buffer units = map chunk_buffer cs ∧
    map node_chunk units = map chunk_data cs ∧
    laidFrom (nextStartTime s) units ∧
    (keepsAhead s cs → abutFrom (nextStartTime s) units) ∧
    nextStartTime (enqueueAll s cs) = endFrom (nextStartTime s) units.
Proof.
  revert s. induction cs as [|c cs IH]; intros s.
  { exists []. simpl. by rewrite !app_nil_r. }
  destruct (IH (enqueue s c)) as (units & Hst & Hsrc & Hbuf & Hdat & Hlaid & Habut & Hend).
  set (src := newSource (chunk_data c) (chunk_buffer c) (chunk_now c) s).
  exists (src :: units). simpl.
  rewrite Hst, Hsrc, started_enqueue, audioSources_enqueue, <-!app_assoc.
  rewrite nextStartTime_enqueue in Hlaid, Habut, Hend.
  split; [done|]. split; [done|].
  split; [by rewrite Hbuf|]. split; [by rewrite Hdat|].
  split; [split; [apply planStart_ge_next|done]|].
  split; [|done].
  intros [Hle Hrest]. split; [by apply planStart_ahead|by apply Habut].
Qed.

Lemma started_enqueue3 s c1 c2 c3 :
  let s1 := enqueue s c1 in
  let s2 := enqueue s1 c2 in
  started (enqueueAll s [c1; c2; c3]) =
  started s ++
    [newSource (chunk_data c1) (chunk_buffer c1) (chunk_now c1) s;
     newSource (chunk_data c2) (chunk_buffer c2) (chunk_now c2) s1;
     newSource (chunk_data c3) (chunk_buffer c3) (chunk_now c3) s2].
Proof.
  intros s1 s2. simpl. rewrite !started_enqueue, <-!app_assoc. done.
Qed.

Lemma abutFrom_tail_adjacent u units i m n :
  abutFrom (node_end u) units →
  (u :: units) !! i = Some m → (u :: units) !! S i = Some n →
  node_end m = node_when n.
Proof.
  intros Habut Hm Hn. destruct i as [|i].
  - destruct units as [|u' units]; simplify_eq/=.
    destruct Habut as [Heq _]. by rewrite Heq.
  - by eapply abutFrom_adjacent.
Qed.

(** C1 as stated fails for the closed sums.  The code adds doubles one
    at a time: with the first chunk enqueued at [t0 = 0.1] the third
    unit starts at [(0.1 + 0.5) + 0.3 = 0.8999999999999999] and
    [nextStartTime] ends at [1.0999999999999999], which are not the
    doubles [0.1 + 0.8 = 0.9] and [0.1 + 1 = 1.1]. *)
Lemma step_by_step_sums_are_rounded :
  let t0 := Double.literal 1 10 in
  let planned :=
    Double.plan (Double.ofZ 0)
      [(t0, Double.literal 5 10); (t0, Double.literal 3 10);
       (t0, Double.literal 2 10)] in
  planned =
    ([t0; Double.literal 6 10; S754_finite false 8106479329266892 (-53)],
     S754_finite false 4953959590107545 (-52)) ∧
  Double.add t0 (Double.literal 8 10) =
    S754_finite false 8106479329266893 (-53) ∧
  Double.add t0 (Double.ofZ 1) = S754_finite false 4953959590107546 (-52) ∧
  fst planned !! 2 ≠ Some (Double.add t0 (Double.literal 8 10)) ∧
  snd planned ≠ Double.add t0 (Double.ofZ 1).
Proof.
  intros t0 planned.
  split; [vm_compute; reflexivity|]. split; [vm_compute; reflexivity|].
  split; [vm_compute; reflexivity|].
  split; vm_compute; intros Heq; discriminate Heq.
Qed.

(** C1 (as the code has it).  [enqueue] starts the new source at the
    maximum of the clock reading and [nextStartTime] and moves
    [nextStartTime] to that start plus the buffer's duration.  Along any
    sequence of enqueues the start times never decrease and no unit
    starts before its predecessor ends; when every chunk after the first
    is enqueued before the planned audio has run out, each unit starts
    exactly when its predecessor ends.  Three chunks of 0.5 s, 0.3 s and
    0.2 s, the first enqueued at [t0] with nothing planned beyond [t0],
    start at [t0], [t0 + 0.5] and [(t0 + 0.5) + 0.3] and leave
    [nextStartTime] at [((t0 + 0.5) + 0.3) + 0.2]: in the rational model
    as exact sums, and in double precision, for any three durations, as
    the sums the code takes, one rounded addition after the other. *)
Theorem enqueue_lays_units_end_to_end
    (s : State) (c : Chunk) (cs : list Chunk)
    (Hahead : keepsAhead (enqueue s c) cs)
    (s0 : State) (t0 : Q) (c1 c2 c3 : Chunk)
    (Hidle : (nextStartTime s0 <= t0)%Q)
    (Hnow : chunk_now c1 = t0)
    (Hahead0 : keepsAhead (enqueue s0 c1) [c2; c3])
    (Hd1 : (duration (chunk_buffer c1) == 1 # 2)%Q)
    (Hd2 : (duration (chunk_buffer c2) == 3 # 10)%Q)
    (Hd3 : (duration (chunk_buffer c3) == 1 # 5)%Q)
    (next0 now1 now2 now3 d1 d2 d3 : Double.double)
    (Hidle' : Double.ltb next0 now1 = true)
    (Hahead2 : Double.ltb (Double.add now1 d1) now2 = false)
    (Hahead3 :
       Double.ltb (Double.add (Double.add now1 d1) d2) now3 = false) :
  (∃ src,
      started (enqueue s c) = started s ++ [src] ∧
      node_buffer src = chunk_buffer c ∧
      (node_when src == Qmax (chunk_now c) (nextStartTime s))%Q ∧
      nextStartTime (enqueue s c) =
        (node_when src + duration (chunk_buffer c))%Q) ∧
  (∀ s' cs', ∃ units,
      started (enqueueAll s' cs') = started s' ++ units ∧
      map node_buffer units = map chunk_buffer cs' ∧
      ∀ i m n, units !! i = Some m → units !! S i = Some n →
        (node_when m <= node_when n)%Q ∧ (node_end m <= node_when n)%Q) ∧
  (∃ units,
      started (enqueueAll s (c :: cs)) = started s ++ units ∧
      map node_buffer units = map chunk_buffer (c :: cs) ∧
      ∀ i m n, units !! i = Some m → units !! S i = Some n →
        node_end m = node_when n) ∧
  (∃ u1 u2 u3,
      started (enqueueAll s0 [c1; c2; c3]) = started s0 ++ [u1; u2; u3] ∧
      (node_when u1 == t0)%Q ∧
      (node_when u2 == t0 + (1 # 2))%Q ∧
      (node_when u3 == t0 + (1 # 2) + (3 # 10))%Q ∧
      (nextStartTime (enqueueAll s0 [c1; c2; c3])
       == t0 + (1 # 2) + (3 # 10) + (1 # 5))%Q) ∧
  Double.plan next0 [(now1, d1); (now2, d2); (now3, d3)] =
    ([now1; Double.add now1 d1; Double.add (Double.add now1 d1) d2],
     Double.add (Double.add (Double.add now1 d1) d2) d3).
Proof.
  split; [|split; [|split; [|split]]].
  - eexists. split; [apply started_enqueue|]. split; [done|].
    split; [apply planStart_max|]. by rewrite nextStartTime_enqueue.
  - intros s' cs'.
    destruct (enqueueAll_units s' cs')
      as (units & Hst & _ & Hbuf & _ & Hlaid & _).
    exists units. split; [done|]. split; [done|].
    intros i m n Hm Hn.
    pose proof (laidFrom_adjacent _ _ _ _ _ Hlaid Hm Hn) as Hle.
    pose proof (node_when_le_end m). split; [lra|done].
  - destruct (enqueueAll_units (enqueue s c) cs)
      as (units & Hst & _ & Hbuf & _ & _ & Habut & _).
    exists (newSource (chunk_data c) (chunk_buffer c) (chunk_now c) s :: units).
    split; [|split].
    + change (enqueueAll s (c :: cs)) with (enqueueAll (enqueue s c) cs).
      by rewrite Hst, started_enqueue, <-app_assoc.
    + simpl. by rewrite Hbuf.
    + intros i m n. apply abutFrom_tail_adjacent.
      rewrite <-nextStartTime_enqueue. by apply Habut.
  - destruct Hahead0 as (Hnow2 & Hnow3 & _).
    set (s1 := enqueue s0 c1) in *. set (s2 := enqueue s1 c2) in *.
    do 3 eexists. split; [apply started_enqueue3|].
    fold s1 s2. unfold newSource; cbn [node_when].
    pose proof (planStart_max s0 (chunk_now c1)) as H1.
    rewrite Hnow, (Q.max_l _ _ Hidle) in H1.
    assert (nextStartTime s1 = planStart s0 t0 + duration (chunk_buffer c1))%Q
      as Hnext1 by (subst s1; by rewrite nextStartTime_enqueue, Hnow).
    assert (nextStartTime s2 =
            planStart s1 (chunk_now c2) + duration (chunk_buffer c2))%Q
      as Hnext2 by (subst s2; by rewrite nextStartTime_enqueue).
    change (enqueueAll s0 [c1; c2; c3]) with (enqueue s2 c3).
    rewrite nextStartTime_enqueue. unfold node_end, newSource.
    cbn [node_when node_buffer].
    rewrite (planStart_ahead s2) by done. rewrite Hnext2.
    rewrite (planStart_ahead s1) by done. rewrite Hnext1, Hnow.
    repeat split; lra.
  - cbn [Double.plan]. unfold Double.schedule. cbn [fst snd].
    by rewrite Hidle', Hahead2, Hahead3.
Qed.

Lemma enqueue_lays_units_end_to_end_witness :
  keepsAhead (enqueue initial halfSecond) [threeTenths; oneFifth] ∧
  (∃ u1 u2 u3,
    started (enqueueAll initial [halfSecond; threeTenths; oneFifth]) =
      [u1; u2; u3] ∧
    (node_when u1 == 7)%Q ∧
    (node_when u2 == 7 + (1 # 2))%Q ∧
    (node_when u3 == 7 + (1 # 2) + (3 # 10))%Q ∧
    (nextStartTime (enqueueAll initial [halfSecond; threeTenths; oneFifth])
     == 7 + (1 # 2) + (3 # 10) + (1 # 5))%Q) ∧
  snd (Double.plan (Double.ofZ 0)
         [(Double.literal 1 10, Double.literal 5 10);
          (Double.literal 1 10, Double.literal 3 10);
          (Double.literal 1 10, Double.literal 2 10)]) =
  Double.add
    (Double.add (Double.add (Double.literal 1 10) (Double.literal 5 10))
       (Double.literal 3 10))
    (Double.literal 2 10).
Proof.
  assert (keepsAhead (enqueue initial halfSecond) [threeTenths; oneFifth])
    as Hahead.
  { split; [qle_by_computation|]. split; [qle_by_computation|exact I]. }
  split; [exact Hahead|].
  assert (nextStartTime initial <= 7)%Q as Hidle by qle_by_computation.
  destruct
    (enqueue_lays_units_end_to_end initial halfSecond [threeTenths; oneFifth]
       Hahead initial 7 halfSecond threeTenths oneFifth Hidle eq_refl Hahead
       eq_refl eq_refl eq_refl
       (Double.ofZ 0) (Double.literal 1 10) (Double.literal 1 10)
       (Double.literal 1 10) (Double.literal 5 10) (Double.literal 3 10)
       (Double.literal 2 10) eq_refl eq_refl eq_refl)
    as (_ & _ & _ & Hexact & Hdouble).
  split; [exact Hexact|]. by rewrite Hdouble.
Defined.

(** What [onmessage] does to the scheduler: nothing, unless the message
    is flagged [interrupted]; chunks it carries only join [decoding]. *)
Lemma onmessage_scheduler idOut idIn msg s :
  nextStartTime (onmessage idOut idIn msg s) =
    (if cancels msg then 0%Q else nextStartTime s) ∧
  audioSources (onmessage idOut idIn msg s) =
    (if cancels msg then [] else audioSources s) ∧
  stopped (onmessage idOut idIn msg s) =
    (if cancels msg then stopped s ++ map node_id (audioSources s)
     else stopped s) ∧
  started (onmessage idOut idIn msg s) = started s ∧
  ended (onmessage idOut idIn msg s) = ended s ∧
  created (onmessage idOut idIn msg s) = created s ∧
  console (onmessage idOut idIn msg s) = console s ∧
  decoding (onmessage idOut idIn msg s) =
    decoding s ++ option_list (chunkOf msg).
Proof.
  unfold onmessage, cancels, chunkOf.
  destruct (inlineData msg) as [base64Audio|]; simpl;
    [|by rewrite app_nil_r].
  unfold blocks, whenSome, whenTrue, onTurnComplete, finalizeInput,
    finalizeOutput.
  destruct (truthy base64Audio), (truthy (outputTranscription msg)),
    (truthy (inputTranscription msg)), (turnComplete msg), (interrupted msg);
    repeat case_bool_decide; simpl; rewrite ?app_nil_r; done.
Qed.



Lemma planStart_after_reset s now :
  nextStartTime s = 0%Q → (0 <= now)%Q → (planStart s now == now)%Q.
Proof.
  intros H0 Hnow. rewrite planStart_max, H0. by apply Q.max_l.
Qed.



(** ** Decode failures *)

Lemma onmessage_ignores_console idOut idIn msg s :
  set_console [] (onmessage idOut idIn msg s) =
  set_console [] (onmessage idOut idIn msg (set_console [] s)).
Proof.
  unfold onmessage.
  destruct (inlineData msg) as [base64Audio|]; [|done].
  unfold blocks, whenSome, whenTrue, onTurnComplete, finalizeInput,
    finalizeOutput.
  destruct (truthy base64Audio), (truthy (outputTranscription msg)),
    (truthy (inputTranscription msg)), (turnComplete msg), (interrupted msg);
    simpl; repeat case_bool_decide; done.
Qed.

Lemma step_ignores_console s e :
  set_console [] (step s e) = set_console [] (step (set_console [] s) e).
Proof.
  destruct e as [idOut idIn msg|i o now| | | | | | |]; simpl; try done.
  - apply onmessage_ignores_console.
  - unfold playAudioChunk_resume. simpl.
    destruct (decoding s !! i); [|done]. by destruct o.
  - unfold idleTimerFired. simpl. by destruct (idleTimeout s).
Qed.

Lemma step_sameButConsole s1 s2 e :
  sameButConsole s1 s2 → sameButConsole (step s1 e) (step s2 e).
Proof.
  unfold sameButConsole. intros Heq.
  by rewrite (step_ignores_console s1), (step_ignores_console s2), Heq.
Qed.

Lemma run_sameButConsole s1 s2 tr :
  sameButConsole s1 s2 → sameButConsole (run s1 tr) (run s2 tr).
Proof.
  revert s1 s2. induction tr as [|e tr IH]; intros s1 s2 Heq; [done|].
  simpl. by apply IH, step_sameButConsole.
Qed.

Lemma sameButConsole_fields s1 s2 :
  sameButConsole s1 s2 →
  messages s1 = messages s2 ∧ avatarPose s1 = avatarPose s2 ∧
  nextStartTime s1 = nextStartTime s2 ∧ audioSources s1 = audioSources s2 ∧
  currentInputTrans s1 = currentInputTrans s2 ∧
  currentOutputTrans s1 = currentOutputTrans s2 ∧
  decoding s1 = decoding s2 ∧ started s1 = started s2 ∧
  stopped s1 = stopped s2 ∧ ended s1 = ended s2 ∧ created s1 = created s2.
Proof.
  unfold sameButConsole, set_console. intros Heq.
  injection Heq as -> -> -> -> -> -> _ -> -> -> -> ->. done.
Qed.

Lemma enqueueFailing_unfold d now s :
  enqueueFailing d now s = decodeFailed (set_decoding (decoding s) s).
Proof.
  unfold enqueueFailing.
  rewrite (resume_failure _ _ _ d).
  - simpl. by rewrite delete_last_snoc.
  - simpl. by apply list_lookup_middle.
Qed.

(** C9.  When the decode of a suspended [playAudioChunk] call fails, the
    call writes one line to the console and ends: [nextStartTime], the
    active set, the started sources, the messages and the pose are as
    before, and only that call leaves [decoding].  A chunk that is
    enqueued and fails to decode leaves [nextStartTime] and the active set
    exactly as they were before the enqueue, and every later run of the
    machine goes as if the chunk had never been enqueued, console apart. *)
Theorem decode_failure_drops_only_that_chunk
    (s : State) (i : nat) (d : string) (now : Q)
    (Hpending : decoding s !! i = Some d) :
  let s' := step s (DecodeSettled i None now) in
  nextStartTime s' = nextStartTime s ∧
  audioSources s' = audioSources s ∧
  started s' = started s ∧
  messages s' = messages s ∧
  avatarPose s' = avatarPose s ∧
  decoding s' = delete i (decoding s) ∧
  console s' = console s ++ ["Audio decode error"] ∧
  (∀ tr,
      sameButConsole (run s' tr)
        (run (set_decoding (delete i (decoding s)) s) tr)) ∧
  (∀ d' now' s0,
      let s0' := enqueueFailing d' now' s0 in
      nextStartTime s0' = nextStartTime s0 ∧
      audioSources s0' = audioSources s0 ∧
      decoding s0' = decoding s0 ∧
      console s0' = console s0 ++ ["Audio decode error"] ∧
      ∀ tr, sameButConsole (run s0' tr) (run s0 tr) ∧
            nextStartTime (run s0' tr) = nextStartTime (run s0 tr) ∧
            audioSources (run s0' tr) = audioSources (run s0 tr) ∧
            started (run s0' tr) = started (run s0 tr)).
Proof.
  cbn zeta. simpl step. rewrite (resume_failure _ _ _ _ Hpending).
  repeat (split; [done|]). split.
  - intros tr. by apply run_sameButConsole.
  - intros d' now' s0. rewrite enqueueFailing_unfold.
    repeat (split; [done|]). intros tr.
    assert (sameButConsole
              (run (decodeFailed (set_decoding (decoding s0) s0)) tr)
              (run s0 tr)) as Hsame.
    { apply run_sameButConsole. unfold sameButConsole. by destruct s0. }
    split; [done|].
    apply sameButConsole_fields in Hsame. tauto.
Qed.

Lemma decode_failure_drops_only_that_chunk_witness :
  let s := step (enqueue initial halfSecond) (audioMessage "!!!!") in
  let s' := step s (DecodeSettled 0 None 8) in
  decoding s !! 0 = Some "!!!!" ∧
  nextStartTime s' = nextStartTime s ∧
  audioSources s' = audioSources s ∧
  decoding s' = [] ∧
  console s' = ["Audio decode error"].
Proof.
  intros s s'.
  destruct (decode_failure_drops_only_that_chunk s 0 "!!!!" 8 eq_refl)
    as (Hnext & Hsrc & _ & _ & _ & Hdec & Hcon & _).
  split; [reflexivity|]. split; [exact Hnext|]. split; [exact Hsrc|].
  split; [exact Hdec|exact Hcon].
Defined.

(** ** Order of the planned units *)

Lemma step_fifo s e (A : list string) :
  settlesOldest e →
  (playOrder s ++ decoding s) `sublist_of` A →
  (playOrder (step s e) ++ decoding (step s e)) `sublist_of` (A ++ arrivalOf e).
Proof.
  intros Hold Hsub.
  destruct e as [idOut idIn msg|i o now|n| | | |newId r t|d|p]; simpl;
    rewrite ?app_nil_r; try done.
  - destruct (onmessage_scheduler idOut idIn msg s)
      as (_ & _ & _ & Hst & _ & _ & _ & Hdec).
    unfold playOrder. rewrite Hst, Hdec, app_assoc. by apply sublist_app.
  - simpl in Hold. subst i. unfold playAudioChunk_resume.
    destruct (decoding s) as [|d ds] eqn:Hdec; simpl.
    { by rewrite Hdec. }
    destruct o as [b|].
    + unfold playOrder. rewrite started_scheduleSource, decoding_scheduleSource.
      simpl. rewrite map_app, <-app_assoc. done.
    + simpl. etrans; [|exact Hsub]. unfold playOrder.
      apply sublist_app; [done|]. by apply sublist_cons.
  - unfold idleTimerFired. by destruct (idleTimeout s).
  - unfold playOrder; simpl. rewrite app_assoc. by apply sublist_app.
Qed.

Lemma run_fifo tr s (A : list string) :
  Forall settlesOldest tr →
  (playOrder s ++ decoding s) `sublist_of` A →
  (playOrder (run s tr) ++ decoding (run s tr)) `sublist_of` (A ++ arrivals tr).
Proof.
  intros Hold. revert s A.
  induction Hold as [|e tr He _ IH]; intros s A Hsub.
  { unfold arrivals; simpl. by rewrite app_nil_r. }
  unfold arrivals; simpl. rewrite app_assoc. apply IH. by apply step_fifo.
Qed.

Lemma StronglySorted_filter {A} (R : relation A) (P : A → Prop)
    `{∀ x, Decision (P x)} (l : list A) :
  StronglySorted R l → StronglySorted R (filter P l).
Proof.
  induction 1 as [|x l _ IH Hx]; [constructor|].
  rewrite filter_cons. case_decide; [|done].
  constructor; [done|].
  rewrite Forall_forall in Hx |- *.
  intros y [_ Hy]%list_elem_of_filter. by apply Hx.
Qed.

Lemma Forall_filter_weaken {A} (Q P : A → Prop) `{∀ x, Decision (P x)}
    (l : list A) :
  Forall Q l → Forall Q (filter P l).
Proof.
  rewrite !Forall_forall. intros Hl y [_ Hy]%list_elem_of_filter. by apply Hl.
Qed.

Lemma laidOut_reset s' :
  audioSources s' = [] → laidOut s'.
Proof. unfold laidOut. intros ->. split; constructor. Qed.

Lemma laidOut_same s s' :
  audioSources s' = audioSources s → nextStartTime s' = nextStartTime s →
  laidOut s → laidOut s'.
Proof. unfold laidOut. by intros -> ->. Qed.

Lemma laidOut_scheduleSource d b now s :
  laidOut s → laidOut (scheduleSource d b now s).
Proof.
  intros [Hsorted Hbound]. unfold laidOut.
  rewrite audioSources_scheduleSource, nextStartTime_scheduleSource.
  set (src := newSource d b now s).
  assert (nextStartTime s <= node_when src)%Q as Hnext
    by apply planStart_ge_next.
  pose proof (node_when_le_end src) as Hdur.
  split.
  - apply StronglySorted_app. split; [|split].
    + intros x1 x2 Hx1 ->%list_elem_of_singleton.
      rewrite Forall_forall in Hbound. specialize (Hbound x1 Hx1).
      unfold endsBefore. simpl in Hbound. lra.
    + done.
    + repeat constructor.
  - apply Forall_app. split.
    + eapply Forall_impl; [exact Hbound|]. simpl. intros x Hx. lra.
    + constructor; [lra|constructor].
Qed.

Lemma step_laidOut s e : laidOut s → laidOut (step s e).
Proof.
  intros Hinv.
  destruct e as [idOut idIn msg|i o now|n| | | |newId r t|d|p]; simpl;
    try done.
  - destruct (onmessage_scheduler idOut idIn msg s) as (Hnext & Hsrc & _).
    destruct (cancels msg).
    + by apply laidOut_reset.
    + by apply (laidOut_same s).
  - unfold playAudioChunk_resume. destruct (decoding s !! i); [|done].
    destruct o; [|done]. by apply laidOut_scheduleSource.
  - destruct Hinv as [Hsorted Hbound]. split; simpl.
    + by apply StronglySorted_filter.
    + by apply Forall_filter_weaken.
  - unfold idleTimerFired. by destruct (idleTimeout s).
  - by apply laidOut_reset.
Qed.

Lemma reachable_laidOut s : reachable s → laidOut s.
Proof.
  induction 1 as [|s e _ IH]; [split; constructor|]. by apply step_laidOut.
Qed.

Lemma StronglySorted_lookup {A} (R : relation A) (l : list A) i j x y :
  StronglySorted R l → i < j → l !! i = Some x → l !! j = Some y → R x y.
Proof.
  intros Hsorted Hij Hx Hy.
  rewrite <-(take_drop j l) in Hsorted.
  eapply StronglySorted_app_1_elem_of; [exact Hsorted| |].
  - apply list_elem_of_lookup. exists i. by rewrite lookup_take_lt.
  - apply list_elem_of_lookup. exists 0. by rewrite lookup_drop, Nat.add_0_r.
Qed.

(** C2 as stated fails.  Two chunks arrive, the decode of the second
    settles first: the second chunk is given the earlier interval and the
    first chunk plays after it. *)
Lemma late_decode_overtakes_earlier_chunk :
  arrivals overtaking = ["AAAA"; "BBBB"] ∧
  started (run initial overtaking) =
    [mkSource 0 "BBBB" (pcm 7200) 7;
     mkSource 1 "AAAA" (pcm 12000) (7 + (7200 # 24000))%Q] ∧
  ¬ playedInArrivalOrder overtaking.
Proof.
  split; [reflexivity|]. split; [reflexivity|].
  unfold playedInArrivalOrder.
  change (playOrder (run initial overtaking)) with ["BBBB"; "AAAA"].
  change (arrivals overtaking) with ["AAAA"; "BBBB"].
  intros Hsub.
  repeat match goal with
         | H : sublist _ _ |- _ => inversion H; clear H; subst
         end.
Qed.

(** C2 (as the code has it).  Units are planned in the order in which
    the decodes settle: a successful decode appends its source to the
    started sources and to the active set, at the maximum of the clock
    reading and [nextStartTime], which is no earlier than the end of any
    unit of the active set.  At every reachable state the active units,
    in that order, do not overlap, and are all over by [nextStartTime].
    When the decodes settle in arrival order, playback follows arrival. *)
Theorem units_are_planned_in_decode_completion_order
    (tr : list Event) (Hfifo : Forall settlesOldest tr)
    (s : State) (Hreach : reachable s)
    (i : nat) (d : string) (b : AudioBuffer) (now : Q)
    (Hpending : decoding s !! i = Some d) :
  playedInArrivalOrder tr ∧
  (∃ src,
      let s' := step s (DecodeSettled i (Some b) now) in
      started s' = started s ++ [src] ∧
      audioSources s' = audioSources s ++ [src] ∧
      decoding s' = delete i (decoding s) ∧
      node_chunk src = d ∧ node_buffer src = b ∧
      (node_when src == Qmax now (nextStartTime s))%Q ∧
      nextStartTime s' = node_end src ∧
      Forall (λ m, endsBefore m src) (audioSources s)) ∧
  (∀ j k m n,
      j < k → audioSources s !! j = Some m → audioSources s !! k = Some n →
      endsBefore m n) ∧
  Forall (λ m, (node_end m <= nextStartTime s)%Q) (audioSources s).
Proof.
  destruct (reachable_laidOut s Hreach) as [Hsorted Hbound].
  split; [|split; [|split]].
  - unfold playedInArrivalOrder.
    pose proof (run_fifo tr initial [] Hfifo) as Hsub.
    simpl in Hsub. specialize (Hsub (sublist_nil_l _)).
    etrans; [|exact Hsub]. by apply sublist_inserts_r.
  - eexists. cbn zeta. simpl step.
    rewrite (resume_success _ _ _ _ d Hpending).
    rewrite started_scheduleSource, audioSources_scheduleSource,
      nextStartTime_scheduleSource, decoding_scheduleSource.
    repeat (split; [done|]).
    split; [apply (planStart_max (set_decoding _ s))|]. split; [done|].
    eapply Forall_impl; [exact Hbound|]. intros m Hm.
    unfold endsBefore, newSource; cbn [node_when].
    pose proof (planStart_ge_next (set_decoding (delete i (decoding s)) s) now)
      as Hge.
    simpl in Hge, Hm. lra.
  - intros j k m n. by apply StronglySorted_lookup.
  - done.
Qed.

Lemma units_are_planned_in_decode_completion_order_witness :
  let tr := [audioMessage "AAAA"; audioMessage "BBBB";
             DecodeSettled 0 (Some (pcm 12000)) 7;
             DecodeSettled 0 (Some (pcm 7200)) 7] in
  let s := run initial (overtaking ++ [audioMessage "CCCC"]) in
  Forall settlesOldest tr ∧
  reachable s ∧
  decoding s !! 0 = Some "CCCC" ∧
  playedInArrivalOrder tr ∧
  playOrder (run initial tr) = ["AAAA"; "BBBB"] ∧
  ∀ j k m n,
    j < k → audioSources s !! j = Some m → audioSources s !! k = Some n →
    endsBefore m n.
Proof.
  intros tr s.
  assert (Forall settlesOldest tr) as Hfifo by (repeat constructor).
  assert (reachable s) as Hreach by (repeat apply reachable_step; constructor).
  destruct (units_are_planned_in_decode_completion_order tr Hfifo s Hreach
              0 "CCCC" (pcm 4800) 8 eq_refl) as (Horder & _ & Hlaid & _).
  split; [exact Hfifo|]. split; [exact Hreach|]. split; [reflexivity|].
  split; [exact Horder|]. split; [reflexivity|exact Hlaid].
Defined.

(** ** Interruption *)

Lemma accounted_step s s' :
  started s' = started s →
  (∀ n, n ∈ audioSources s →
        n ∈ audioSources s' ∨ node_id n ∈ ended s' ∨ node_id n ∈ stopped s') →
  (∀ k, k ∈ ended s → k ∈ ended s') →
  (∀ k, k ∈ stopped s → k ∈ stopped s') →
  accounted s → accounted s'.
Proof.
  intros Hst Hsrc Hend Hstop Hacc n Hn. rewrite Hst in Hn.
  destruct (Hacc n Hn) as [?|[?|?]]; auto.
Qed.

Lemma accounted_stopAll s s' :
  started s' = started s →
  ended s' = ended s →
  stopped s' = stopped s ++ map node_id (audioSources s) →
  accounted s → accounted s'.
Proof.
  intros Hst Hend Hstop. apply accounted_step; [done| | |].
  - intros n Hn. right; right. rewrite Hstop. apply elem_of_app. right.
    by apply list_elem_of_fmap_2.
  - by rewrite Hend.
  - intros k Hk. rewrite Hstop. apply elem_of_app. by left.
Qed.

Lemma accounted_same s s' :
  started s' = started s → audioSources s' = audioSources s →
  ended s' = ended s → stopped s' = stopped s →
  accounted s → accounted s'.
Proof.
  intros Hst Hsrc Hend Hstop. apply accounted_step; [done| | |].
  - intros n Hn. left. by rewrite Hsrc.
  - by rewrite Hend.
  - by rewrite Hstop.
Qed.

Lemma step_accounted s e : accounted s → accounted (step s e).
Proof.
  intros Hacc.
  destruct e as [idOut idIn msg|i o now|k| | | |newId r t|d|p]; simpl;
    try done.
  - destruct (onmessage_scheduler idOut idIn msg s)
      as (_ & Hsrc & Hstop & Hst & Hend & _).
    destruct (cancels msg).
    + by apply (accounted_stopAll s).
    + by apply (accounted_same s).
  - unfold playAudioChunk_resume. destruct (decoding s !! i); [|done].
    destruct o as [b|]; [|done].
    intros n. rewrite started_scheduleSource, audioSources_scheduleSource.
    intros [Hn|Hn]%elem_of_app.
    + destruct (Hacc n Hn) as [?|[?|?]]; auto.
      left. apply elem_of_app. by left.
    + left. apply elem_of_app. by right.
  - intros n Hn. simpl in Hn. destruct (Hacc n Hn) as [Hin|[?|?]]; simpl.
    + destruct (decide (node_id n = k)) as [<-|Hne].
      * right; left. apply elem_of_app. right. by apply list_elem_of_singleton.
      * left. by apply list_elem_of_filter.
    + right; left. apply elem_of_app. by left.
    + by right; right.
  - unfold idleTimerFired. by destruct (idleTimeout s).
  - by apply (accounted_stopAll s).
Qed.

Lemma reachable_accounted s : reachable s → accounted s.
Proof.
  induction 1 as [|s e _ IH]; [by intros n Hn%elem_of_nil|].
  by apply step_accounted.
Qed.

Lemma sameButDraft_refl m : sameButDraft m m.
Proof. unfold sameButDraft. auto. Qed.

Lemma sameButDraft_live r m1 m2 :
  sameButDraft m1 m2 → liveFor r (Some m1) = liveFor r (Some m2).
Proof. intros (_ & Hr & Hf & _). simpl. by rewrite Hr, Hf. Qed.

Lemma Forall2_snoc_view (l1 l2 : list ChatMessage) :
  Forall2 sameButDraft l1 l2 →
  (l1 = [] ∧ l2 = []) ∨
  ∃ l1' m1 l2' m2,
    l1 = l1' ++ [m1] ∧ l2 = l2' ++ [m2] ∧
    Forall2 sameButDraft l1' l2' ∧ sameButDraft m1 m2.
Proof.
  intros Hall. destruct (snoc_view l1) as [->|(l1' & m1 & ->)].
  - left. split; [done|]. by apply Forall2_nil_inv_l in Hall.
  - right. apply Forall2_app_inv_l in Hall as (l2' & k & Hl & Hk & ->).
    apply Forall2_cons_inv_l in Hk as (m2 & k' & Hm & ->%Forall2_nil_inv_l & ->).
    by exists l1', m1, l2', m2.
Qed.

Lemma updateLiveMessage_sameButDraft newId r t l1 l2 :
  Forall2 sameButDraft l1 l2 →
  Forall2 sameButDraft (updateLiveMessage newId r t l1)
    (updateLiveMessage newId r t l2).
Proof.
  intros [[-> ->]|(l1' & m1 & l2' & m2 & -> & -> & Hl & Hm)]%Forall2_snoc_view.
  { repeat constructor. }
  rewrite !updateLiveMessage_snoc, (sameButDraft_live r m1 m2 Hm).
  destruct (liveFor r (Some m2)).
  - destruct Hm as (Hid & Hr & Hf & Ht).
    apply Forall2_app; [done|]. repeat constructor; simpl; auto.
  - apply Forall2_app; [apply Forall2_app; [done|by constructor]|].
    constructor; [apply sameButDraft_refl|constructor].
Qed.

Lemma finalizeMessage_sameButDraft r t l1 l2 :
  Forall2 sameButDraft l1 l2 →
  Forall2 sameButDraft (finalizeMessage r t l1) (finalizeMessage r t l2).
Proof.
  intros [[-> ->]|(l1' & m1 & l2' & m2 & -> & -> & Hl & Hm)]%Forall2_snoc_view.
  { constructor. }
  rewrite !finalizeMessage_snoc, (sameButDraft_live r m1 m2 Hm).
  destruct (liveFor r (Some m2)).
  - destruct Hm as (Hid & Hr & Hf & Ht).
    apply Forall2_app; [done|]. repeat constructor; simpl; auto.
  - apply Forall2_app; [done|]. by constructor.
Qed.

Lemma sameButDraft_finalized l1 l2 :
  Forall2 sameButDraft l1 l2 →
  filter (λ m, isFinal m = true) l1 = filter (λ m, isFinal m = true) l2.
Proof.
  induction 1 as [|m1 m2 l1 l2 (Hid & Hr & Hf & Ht) _ IH]; [done|].
  rewrite !filter_cons, IH, <-Hf.
  case_decide as Hfin; [|done].
  destruct Ht as [Ht|[_ Hopen]]; [|congruence].
  destruct m1, m2; simpl in *. by subst.
Qed.

Lemma sameButDrafts_accumulator r s1 s2 :
  sameButDrafts s1 s2 → accumulator r s1 = accumulator r s2.
Proof.
  intros [_ Heq]. unfold besidesMessages, set_messages in Heq.
  injection Heq as _ _ _ Hin Hout _ _ _ _ _ _ _. by destruct r.
Qed.

Lemma respectsDrafts_frame f :
  (∀ s, messages (f s) = messages s) →
  (∀ s, besidesMessages (f s) = besidesMessages (f (besidesMessages s))) →
  respectsDrafts f.
Proof.
  intros Hmsg Hrest s1 s2 [Hall Heq]. split.
  - by rewrite !Hmsg.
  - by rewrite (Hrest s1), (Hrest s2), Heq.
Qed.

Lemma respectsDrafts_append newId r d : respectsDrafts (append newId r d).
Proof.
  intros s1 s2 Hsame. pose proof Hsame as [Hall Heq]. split.
  - rewrite !messages_append, (sameButDrafts_accumulator r s1 s2 Hsame).
    by apply updateLiveMessage_sameButDraft.
  - transitivity (besidesMessages (append newId r d (besidesMessages s1))).
    + by destruct r.
    + rewrite Heq. by destruct r.
Qed.

Lemma finalize_besidesMessages r s :
  besidesMessages (finalize r s) =
  besidesMessages (finalize r (besidesMessages s)).
Proof.
  destruct r; simpl; unfold finalizeOutput, finalizeInput; simpl;
    by case_bool_decide.
Qed.

Lemma respectsDrafts_finalize r : respectsDrafts (finalize r).
Proof.
  intros s1 s2 Hsame. pose proof Hsame as [Hall Heq]. split.
  - rewrite !messages_finalize, (sameButDrafts_accumulator r s1 s2 Hsame).
    case_bool_decide; [done|]. by apply finalizeMessage_sameButDraft.
  - by rewrite (finalize_besidesMessages r s1), (finalize_besidesMessages r s2),
      Heq.
Qed.

Lemma respectsDrafts_whenSome {A} (o : option A) f :
  (∀ a, respectsDrafts (f a)) → respectsDrafts (whenSome o f).
Proof. intros Hf. destruct o; simpl; [apply Hf|by intros ??]. Qed.

Lemma respectsDrafts_whenTrue b f :
  respectsDrafts f → respectsDrafts (whenTrue b f).
Proof. intros Hf. destruct b; simpl; [apply Hf|by intros ??]. Qed.

Lemma respectsDrafts_onmessage idOut idIn msg :
  respectsDrafts (onmessage idOut idIn msg).
Proof.
  intros s1 s2 Hsame.
  destruct (inlineData msg) as [base64Audio|] eqn:Hread;
    [|by rewrite !onmessage_throws].
  rewrite !(onmessage_blocks _ _ _ _ _ Hread).
  apply respectsDrafts_whenTrue; [by apply respectsDrafts_frame|].
  apply respectsDrafts_whenTrue.
  { intros t1 t2 Ht. by apply respectsDrafts_finalize, respectsDrafts_finalize. }
  apply respectsDrafts_whenSome; [apply respectsDrafts_append|].
  apply respectsDrafts_whenSome; [apply respectsDrafts_append|].
  apply respectsDrafts_whenSome; [|done].
  intros d. by apply respectsDrafts_frame.
Qed.

Lemma respectsDrafts_step e : respectsDrafts (λ s, step s e).
Proof.
  destruct e as [idOut idIn msg|i o now|k| | | |newId r t|d|p]; simpl;
    try by apply respectsDrafts_frame.
  - apply respectsDrafts_onmessage.
  - apply respectsDrafts_frame.
    + intros s. apply messages_resume.
    + intros s. unfold playAudioChunk_resume. simpl.
      destruct (decoding s !! i); [|done]. by destruct o.
  - apply respectsDrafts_frame.
    + apply messages_idleTimerFired.
    + intros s. unfold idleTimerFired. simpl. by destruct (idleTimeout s).
  - intros s1 s2 [Hall Heq]. split; simpl.
    + apply Forall2_app; [done|].
      constructor; [apply sameButDraft_refl|constructor].
    + unfold besidesMessages in *. simpl in *. done.
Qed.

Lemma run_sameButDrafts tr s1 s2 :
  sameButDrafts s1 s2 → sameButDrafts (run s1 tr) (run s2 tr).
Proof.
  revert s1 s2. induction tr as [|e tr IH]; intros s1 s2 Hsame; [done|].
  simpl. by apply IH, (respectsDrafts_step e).
Qed.

Lemma onInterrupted_discards s1 s2 :
  sameButRemoteBuffer s1 s2 →
  sameButDrafts (onInterrupted s1) (onInterrupted s2).
Proof.
  intros [Hall Heq]. split; [done|].
  unfold besidesMessages, set_messages in *. simpl in *.
  injection Heq; intros. congruence.
Qed.

Lemma sameButRemoteBuffer_fields s1 s2 :
  sameButRemoteBuffer s1 s2 ↔
  Forall2 sameButDraft (messages s1) (messages s2) ∧
  avatarPose s1 = avatarPose s2 ∧ nextStartTime s1 = nextStartTime s2 ∧
  audioSources s1 = audioSources s2 ∧
  currentInputTrans s1 = currentInputTrans s2 ∧
  idleTimeout s1 = idleTimeout s2 ∧ decoding s1 = decoding s2 ∧
  started s1 = started s2 ∧ stopped s1 = stopped s2 ∧
  ended s1 = ended s2 ∧ console s1 = console s2 ∧ created s1 = created s2.
Proof.
  unfold sameButRemoteBuffer, sameButDrafts, besidesMessages.
  destruct s1, s2; simpl. split.
  - intros [Hall Heq]. injection Heq; intros; subst. done.
  - intros (Hall & -> & -> & -> & -> & -> & -> & -> & -> & -> & -> & ->).
    done.
Qed.

(** A delta of the model keeps two lists alike up to the model's drafts,
    whatever the two accumulators hold. *)
Lemma updateLiveMessage_draft newId t1 t2 l1 l2 :
  Forall2 sameButDraft l1 l2 →
  Forall2 sameButDraft (updateLiveMessage newId model t1 l1)
    (updateLiveMessage newId model t2 l2).
Proof.
  intros [[-> ->]|(l1' & m1 & l2' & m2 & -> & -> & Hl & Hm)]%Forall2_snoc_view.
  { rewrite !updateLiveMessage_nil. constructor; [|constructor].
    unfold sameButDraft; simpl.
    split; [done|]. split; [done|]. split; [done|]. by right. }
  rewrite !updateLiveMessage_snoc, (sameButDraft_live model m1 m2 Hm).
  destruct (liveFor model (Some m2)) eqn:Hlive.
  - apply liveFor_Some in Hlive as [Hr Hf].
    destruct Hm as (Hid & Hrole & Hfin & _).
    apply Forall2_app; [done|]. constructor; [|constructor].
    unfold sameButDraft; simpl.
    split; [done|]. split; [done|]. split; [done|]. right. split; congruence.
  - apply Forall2_app; [apply Forall2_app; [done|by constructor]|].
    constructor; [|constructor]. unfold sameButDraft; simpl.
    split; [done|]. split; [done|]. split; [done|]. by right.
Qed.

Lemma sameButRemoteBuffer_append newId r d s1 s2 :
  sameButRemoteBuffer s1 s2 →
  sameButRemoteBuffer (append newId r d s1) (append newId r d s2).
Proof.
  rewrite !sameButRemoteBuffer_fields.
  intros (Hall & Hpose & Hnext & Hsrc & Hin & Hrest).
  rewrite !messages_append. destruct r; simpl.
  - rewrite Hin. split; [by apply updateLiveMessage_sameButDraft|].
    by rewrite Hpose, Hnext, Hsrc.
  - split; [by apply updateLiveMessage_draft|]. done.
Qed.

Lemma sameButRemoteBuffer_whenSome {A} (o : option A) f s1 s2 :
  (∀ a s1 s2, sameButRemoteBuffer s1 s2 → sameButRemoteBuffer (f a s1) (f a s2)) →
  sameButRemoteBuffer s1 s2 →
  sameButRemoteBuffer (whenSome o f s1) (whenSome o f s2).
Proof. intros Hf Hsame. destruct o; simpl; [by apply Hf|done]. Qed.

(** A server message flagged [interrupted] and not [turnComplete] takes
    two states that differ in the model's draft to two states that differ
    at most in the text of open messages of the model. *)
Lemma onmessage_discards idOut idIn msg base64Audio s1 s2 :
  inlineData msg = Some base64Audio →
  interrupted msg = true → turnComplete msg = false →
  sameButRemoteBuffer s1 s2 →
  sameButDrafts (onmessage idOut idIn msg s1) (onmessage idOut idIn msg s2).
Proof.
  intros Hread Hflag Hturn Hsame.
  rewrite !(onmessage_blocks _ _ _ _ _ Hread), Hflag, Hturn.
  cbn [whenTrue]. apply onInterrupted_discards.
  apply sameButRemoteBuffer_whenSome;
    [intros; by apply sameButRemoteBuffer_append|].
  apply sameButRemoteBuffer_whenSome;
    [intros; by apply sameButRemoteBuffer_append|].
  apply sameButRemoteBuffer_whenSome; [|done].
  intros d t1 t2. rewrite !sameButRemoteBuffer_fields. simpl.
  intros (? & ? & ? & ? & ? & ? & -> & ?). done.
Qed.

(** Whatever is active later plays a chunk that was active or pending, or
    that arrived in between. *)
Lemma step_sources_from (A : list string) s e :
  (∀ n, n ∈ audioSources s → node_chunk n ∈ A) →
  (∀ d, d ∈ decoding s → d ∈ A) →
  (∀ n, n ∈ audioSources (step s e) → node_chunk n ∈ A ++ arrivalOf e) ∧
  (∀ d, d ∈ decoding (step s e) → d ∈ A ++ arrivalOf e).
Proof.
  intros Hsrc Hdec.
  destruct e as [idOut idIn msg|i o now|k| | | |newId r t|d0|p]; simpl;
    rewrite ?app_nil_r; try done.
  - destruct (onmessage_scheduler idOut idIn msg s)
      as (_ & -> & _ & _ & _ & _ & _ & ->).
    split.
    + intros n Hn. apply elem_of_app. left. apply Hsrc.
      destruct (cancels msg); [by apply elem_of_nil in Hn|done].
    + intros d [Hd|Hd]%elem_of_app; apply elem_of_app; auto.
  - destruct (resume_cases i o now s)
      as [[_ ->]|[(d & b & Hd & _ & ->)|(d & Hd & _ & ->)]]; [done| |].
    + rewrite audioSources_scheduleSource, decoding_scheduleSource. simpl.
      split.
      * intros n [Hn| ->%list_elem_of_singleton]%elem_of_app; [by apply Hsrc|].
        apply Hdec. by eapply list_elem_of_lookup_2.
      * intros d' Hd'. apply Hdec.
        eapply elem_of_sublist; [exact Hd'|apply sublist_delete].
    + simpl. split; [done|].
      intros d' Hd'. apply Hdec.
      eapply elem_of_sublist; [exact Hd'|apply sublist_delete].
  - split; [|done]. intros n [_ Hn]%list_elem_of_filter. by apply Hsrc.
  - unfold idleTimerFired. by destruct (idleTimeout s).
  - split; [|done]. by intros n Hn%elem_of_nil.
  - split.
    + intros n Hn. apply elem_of_app. left. by apply Hsrc.
    + intros d [Hd|Hd]%elem_of_app; apply elem_of_app; auto.
Qed.

Lemma run_sources_from tr : ∀ (A : list string) s,
  (∀ n, n ∈ audioSources s → node_chunk n ∈ A) →
  (∀ d, d ∈ decoding s → d ∈ A) →
  ∀ n, n ∈ audioSources (run s tr) → node_chunk n ∈ A ++ arrivals tr.
Proof.
  induction tr as [|e tr IH]; intros A s Hsrc Hdec.
  { unfold arrivals. simpl. rewrite app_nil_r. exact Hsrc. }
  destruct (step_sources_from A s e Hsrc Hdec) as [Hsrc' Hdec'].
  intros n Hn. unfold arrivals. simpl. rewrite app_assoc.
  by apply (IH (A ++ arrivalOf e) (step s e)).
Qed.

(** C3 as stated fails.  A chunk whose decode is still pending when the
    interruption is handled is started afterwards, with no new chunk
    arriving; and a message flagged both [turnComplete] and [interrupted]
    finalizes the model's draft before it discards it. *)
Lemma interruption_spares_pending_decode_and_completed_draft :
  let flagged := ServerMessage "" "" (mkServerMessage None None None false true) in
  let both := ServerMessage "" "" (mkServerMessage None None None true true) in
  let speaking t := run initial [outputDelta "1" t; audioMessage "AAAA"] in
  audioSources
    (run (step (speaking "hello") flagged)
       [DecodeSettled 0 (Some (pcm 12000)) 7]) =
    [mkSource 0 "AAAA" (pcm 12000) 7] ∧
  ¬ silences flagged (speaking "hello") ∧
  finalized (step (speaking "hello") both) = [mkMsg "1" model "hello" true] ∧
  finalized (step (speaking "goodbye") both) =
    [mkMsg "1" model "goodbye" true] ∧
  ¬ discardsDraft both (speaking "hello").
Proof.
  intros flagged both speaking.
  split; [reflexivity|]. split.
  { intros Hsilent.
    specialize (Hsilent [DecodeSettled 0 (Some (pcm 12000)) 7] eq_refl).
    discriminate Hsilent. }
  split; [reflexivity|]. split; [reflexivity|].
  intros Hdiscard.
  assert (sameButRemoteBuffer (speaking "hello") (speaking "goodbye"))
    as Hdraft.
  { apply sameButRemoteBuffer_fields. simpl.
    split; [|done]. constructor; [|constructor].
    unfold sameButDraft; simpl.
    split; [done|]. split; [done|]. split; [done|]. by right. }
  specialize (Hdiscard (speaking "goodbye") [] Hdraft).
  discriminate Hdiscard.
Qed.

(** C3 (as the code has it).  A server message flagged [interrupted]
    that gets past line 311 ends with the [interrupted] block: [stop] is
    called on every source of the active set and the set is emptied, so
    that every source started before the event is out of the active set
    and has been stopped or had already ended; [nextStartTime] is put
    back to 0, the model's accumulator is emptied and the pose is
    [LISTENING_SIDE].  The suspended decodes are not cancelled: whatever
    is active later plays a chunk that was still decoding at the event or
    that arrived after it.  Unless the message is flagged [turnComplete]
    as well, the final messages of every later state do not depend on
    what the model's draft held before the event.  The block by itself
    does the same whatever the message. *)
Theorem interrupted_stops_audio_and_discards_draft
    (s : State) (Hreach : reachable s)
    (idOut idIn : string) (msg : LiveServerMessage)
    (base64Audio : option string)
    (Hread : inlineData msg = Some base64Audio)
    (Hflag : interrupted msg = true)
    (s2 : State) (Hdraft : sameButRemoteBuffer s s2) :
  let e := ServerMessage idOut idIn msg in
  let s' := step s e in
  audioSources s' = [] ∧
  nextStartTime s' = 0%Q ∧
  (∀ n, n ∈ audioSources s → node_id n ∈ stopped s') ∧
  (∀ n, n ∈ started s →
        (n ∉ audioSources s') ∧
        (node_id n ∈ stopped s' ∨ node_id n ∈ ended s')) ∧
  decoding s' = decoding s ++ arrivalOf e ∧
  (∀ tr n, n ∈ audioSources (run s' tr) →
           node_chunk n ∈ decoding s' ++ arrivals tr) ∧
  currentOutputTrans s' = "" ∧
  avatarPose s' = LISTENING_SIDE ∧
  (turnComplete msg = false →
   ∀ tr, finalized (run (step s2 e) tr) = finalized (run s' tr)) ∧
  (let s'' := onInterrupted s in
   audioSources s'' = [] ∧
   nextStartTime s'' = 0%Q ∧
   (∀ n, n ∈ audioSources s → node_id n ∈ stopped s'') ∧
   (∀ n, n ∈ started s →
         (n ∉ audioSources s'') ∧
         (node_id n ∈ stopped s'' ∨ node_id n ∈ ended s'')) ∧
   currentOutputTrans s'' = "" ∧
   avatarPose s'' = LISTENING_SIDE ∧
   messages s'' = messages s ∧
   ∀ tr, finalized (run (onInterrupted s2) tr) = finalized (run s'' tr)).
Proof.
  pose proof (reachable_accounted s Hreach) as Hacc.
  assert (∀ n, n ∈ audioSources s →
               node_id n ∈ stopped s ++ map node_id (audioSources s)) as Hstop.
  { intros n Hn. apply elem_of_app. right. by apply list_elem_of_fmap_2. }
  assert (∀ n, n ∈ started s →
               node_id n ∈ stopped s ++ map node_id (audioSources s) ∨
               node_id n ∈ ended s) as Hall.
  { intros n Hn. destruct (Hacc n Hn) as [?|[?|?]]; [left; auto|by right|].
    left. apply elem_of_app. by left. }
  cbn zeta. simpl step.
  destruct (onmessage_scheduler idOut idIn msg s)
    as (Hnext & Hsrc & Hstopped & _ & Hend & _ & _ & Hdec).
  rewrite (cancels_true _ _ Hread Hflag) in Hnext, Hsrc, Hstopped.
  assert (currentOutputTrans (onmessage idOut idIn msg s) = "" ∧
          avatarPose (onmessage idOut idIn msg s) = LISTENING_SIDE)
    as [Hout Hpose].
  { rewrite (onmessage_blocks _ _ _ _ _ Hread), Hflag. done. }
  rewrite Hnext, Hsrc, Hstopped, Hend.
  split; [done|]. split; [done|]. split; [exact Hstop|].
  split; [intros n Hn; split; [apply not_elem_of_nil|by apply Hall]|].
  split; [exact Hdec|].
  split.
  { intros tr. apply run_sources_from.
    - rewrite Hsrc. by intros n Hn%elem_of_nil.
    - done. }
  split; [exact Hout|]. split; [exact Hpose|].
  split.
  { intros Hturn tr. unfold finalized. symmetry.
    apply sameButDraft_finalized.
    by apply run_sameButDrafts, (onmessage_discards _ _ _ base64Audio). }
  split; [done|]. split; [done|]. split; [exact Hstop|].
  split; [intros n Hn; split; [apply not_elem_of_nil|by apply Hall]|].
  split; [done|]. split; [done|]. split; [done|].
  intros tr. unfold finalized. symmetry.
  apply sameButDraft_finalized.
  by apply run_sameButDrafts, onInterrupted_discards.
Qed.

Lemma interrupted_stops_audio_and_discards_draft_witness :
  let speaking t :=
    run initial [inputDelta "1" "hi"; outputDelta "2" t; audioMessage "AAAA";
                 DecodeSettled 0 (Some (pcm 12000)) 7; audioMessage "BBBB"] in
  let flagged := mkServerMessage None (Some "!") None false true in
  let e := ServerMessage "3" "" flagged in
  let later := [outputDelta "4" "sorry"; turnCompleted] in
  reachable (speaking "hello") ∧
  sameButRemoteBuffer (speaking "hello") (speaking "goodbye") ∧
  length (audioSources (speaking "hello")) = 1 ∧
  audioSources (step (speaking "hello") e) = [] ∧
  decoding (step (speaking "hello") e) = ["BBBB"] ∧
  finalized (run (step (speaking "goodbye") e) later) =
  finalized (run (step (speaking "hello") e) later) ∧
  finalized (run (step (speaking "hello") e) later) =
  [mkMsg "2" model "sorry" true].
Proof.
  intros speaking flagged e later.
  assert (reachable (speaking "hello")) as Hreach
    by apply reachable_run, reachable_initial.
  assert (sameButRemoteBuffer (speaking "hello") (speaking "goodbye"))
    as Hdraft.
  { apply sameButRemoteBuffer_fields. simpl. split; [|done].
    constructor; [apply sameButDraft_refl|].
    constructor; [|constructor].
    unfold sameButDraft; simpl.
    split; [done|]. split; [done|]. split; [done|]. by right. }
  destruct (interrupted_stops_audio_and_discards_draft (speaking "hello")
              Hreach "3" "" flagged None eq_refl eq_refl
              (speaking "goodbye") Hdraft)
    as (Hempty & _ & _ & _ & Hdec & _ & _ & _ & Hfinal & _).
  split; [exact Hreach|]. split; [exact Hdraft|].
  split; [reflexivity|]. split; [exact Hempty|]. split; [exact Hdec|].
  split; [exact (Hfinal eq_refl later)|reflexivity].
Defined.

(** * Further properties *)

(** ** The scheduler: bookkeeping *)

Lemma step_conserves_chunks s e :
  length (started (step s e)) + length (console (step s e)) +
    length (decoding (step s e)) =
  length (started s) + length (console s) + length (decoding s) +
    length (arrivalOf e).
Proof.
  destruct e as [idOut idIn msg|i o now|k| | | |newId r t|d|p]; simpl;
    try lia.
  - destruct (onmessage_scheduler idOut idIn msg s)
      as (_ & _ & _ & -> & _ & _ & -> & ->).
    rewrite length_app. lia.
  - destruct (resume_cases i o now s)
      as [[_ ->]|[(d & b & Hd & _ & ->)|(d & Hd & _ & ->)]]; [lia| |].
    + rewrite started_scheduleSource, decoding_scheduleSource, length_app.
      simpl. rewrite length_delete by done.
      apply lookup_lt_Some in Hd. lia.
    + simpl. rewrite length_app, length_delete by done. simpl.
      apply lookup_lt_Some in Hd. lia.
  - unfold idleTimerFired. destruct (idleTimeout s); simpl; lia.
  - rewrite length_app. simpl. lia.
Qed.

Lemma step_chunks_accounted s e :
  playOrder (step s e) ++ decoding (step s e) ⊆+
  (playOrder s ++ decoding s) ++ arrivalOf e.
Proof.
  destruct e as [idOut idIn msg|i o now|k| | | |newId r t|d|p]; simpl;
    rewrite ?app_nil_r; try reflexivity.
  - destruct (onmessage_scheduler idOut idIn msg s)
      as (_ & _ & _ & Hst & _ & _ & _ & Hdec).
    unfold playOrder. by rewrite Hst, Hdec, app_assoc.
  - destruct (resume_cases i o now s)
      as [[_ ->]|[(d & b & Hd & _ & ->)|(d & Hd & _ & ->)]]; [done| |].
    + unfold playOrder.
      rewrite started_scheduleSource, decoding_scheduleSource. simpl.
      rewrite map_app, <-app_assoc. apply submseteq_skips_l. simpl.
      apply Permutation_submseteq. symmetry. by apply delete_Permutation.
    + simpl. apply submseteq_skips_l, submseteq_delete.
  - unfold idleTimerFired. by destruct (idleTimeout s).
  - unfold playOrder; simpl. by rewrite app_assoc.
Qed.

Lemma run_chunks_accounted tr : ∀ s,
  playOrder (run s tr) ++ decoding (run s tr) ⊆+
  (playOrder s ++ decoding s) ++ arrivals tr.
Proof.
  induction tr as [|e tr IH]; intros s.
  { unfold arrivals; simpl. by rewrite app_nil_r. }
  change (arrivals (e :: tr)) with (arrivalOf e ++ arrivals tr).
  rewrite app_assoc. etrans; [apply (IH (step s e))|].
  apply submseteq_skips_r, step_chunks_accounted.
Qed.

(** X1.  No chunk is made up and none is started twice: along every run
    the chunks of the sources started and of the calls still suspended
    are, counted with their multiplicity, among the chunks there were
    before and the chunks handed to [playAudioChunk] since.  None is lost
    silently either: the chunks handed over are as many as the sources
    started, the decode errors logged and the calls still suspended,
    together. *)
Theorem chunks_are_conserved (s : State) (tr : list Event) :
  playOrder (run s tr) ++ decoding (run s tr) ⊆+
    (playOrder s ++ decoding s) ++ arrivals tr ∧
  playOrder (run initial tr) ++ decoding (run initial tr) ⊆+ arrivals tr ∧
  length (started (run s tr)) + length (console (run s tr)) +
    length (decoding (run s tr)) =
  length (started s) + length (console s) + length (decoding s) +
    length (arrivals tr) ∧
  length (arrivals tr) =
    length (started (run initial tr)) + length (console (run initial tr)) +
    length (decoding (run initial tr)).
Proof.
  split; [apply run_chunks_accounted|].
  split; [apply (run_chunks_accounted tr initial)|].
  assert (∀ s0,
    length (started (run s0 tr)) + length (console (run s0 tr)) +
      length (decoding (run s0 tr)) =
    length (started s0) + length (console s0) + length (decoding s0) +
      length (arrivals tr)) as Hall.
  { induction tr as [|e tr IH]; intros s0; [simpl; lia|].
    simpl. rewrite IH, step_conserves_chunks.
    unfold arrivals. simpl. rewrite length_app. lia. }
  split; [apply Hall|]. rewrite (Hall initial). simpl. lia.
Qed.

Lemma step_nonNegative s e : nonNegative s → nonNegative (step s e).
Proof.
  intros [Hnext Hall].
  destruct e as [idOut idIn msg|i o now|k| | | |newId r t|d|p]; simpl;
    try done.
  - destruct (onmessage_scheduler idOut idIn msg s)
      as (Hn & _ & _ & Hst & _).
    split; [|by rewrite Hst].
    rewrite Hn. by destruct (cancels msg).
  - destruct (resume_cases i o now s)
      as [[_ ->]|[(d & b & _ & _ & ->)|(d & _ & _ & ->)]]; [done| |done].
    set (s0 := set_decoding (delete i (decoding s)) s).
    pose proof (planStart_ge_next s0 now) as Hge.
    pose proof (duration_nonneg b) as Hdur.
    change (nextStartTime s0) with (nextStartTime s) in Hge.
    split.
    + rewrite nextStartTime_scheduleSource. unfold node_end, newSource.
      cbn [node_when node_buffer]. lra.
    + rewrite started_scheduleSource. apply Forall_app. split; [done|].
      constructor; [|constructor]. unfold newSource; cbn [node_when]. lra.
  - unfold idleTimerFired. by destruct (idleTimeout s).
Qed.

(** X2.  At every reachable state [nextStartTime] is not negative, and no
    source was started at a negative time: whatever the clock readings,
    [source.start] is never given a negative [when]. *)
Theorem start_times_are_never_negative (s : State) (Hreach : reachable s)
    (n : AudioBufferSourceNode) (Hn : n ∈ started s) :
  (0 <= nextStartTime s)%Q ∧ (0 <= node_when n)%Q ∧ (0 <= node_end n)%Q.
Proof.
  assert (nonNegative s) as [Hnext Hall].
  { clear n Hn. induction Hreach as [|s e _ IH].
    - split; [simpl; lra|constructor].
    - by apply step_nonNegative. }
  rewrite Forall_forall in Hall. specialize (Hall n Hn).
  pose proof (node_when_le_end n). repeat split; lra.
Qed.

Lemma start_times_are_never_negative_witness :
  let s := run initial (overtaking ++ [Disconnect]) in
  let n := mkSource 1 "AAAA" (pcm 12000) (7 + (7200 # 24000))%Q in
  reachable s ∧ n ∈ started s ∧
  (0 <= nextStartTime s)%Q ∧ (0 <= node_when n)%Q.
Proof.
  intros s n.
  assert (reachable s) as Hreach by apply reachable_run, reachable_initial.
  assert (n ∈ started s) as Hn
    by (apply list_elem_of_lookup; exists 1; reflexivity).
  destruct (start_times_are_never_negative s Hreach n Hn) as (H1 & H2 & _).
  auto.
Defined.

Lemma step_keeps_audio_ahead s e :
  keepsAudio e → (nextStartTime s <= nextStartTime (step s e))%Q.
Proof.
  destruct e as [idOut idIn msg|i o now|k| | | |newId r t|d|p]; simpl;
    try lra; try done.
  - intros Hflag.
    destruct (onmessage_scheduler idOut idIn msg s) as (-> & _).
    rewrite (cancels_false _ Hflag). lra.
  - intros _.
    destruct (resume_cases i o now s)
      as [[_ ->]|[(d & b & _ & _ & ->)|(d & _ & _ & ->)]];
      [lra| |simpl; lra].
    set (s0 := set_decoding (delete i (decoding s)) s).
    pose proof (planStart_ge_next s0 now) as Hge.
    pose proof (duration_nonneg b) as Hdur.
    change (nextStartTime s0) with (nextStartTime s) in Hge.
    rewrite nextStartTime_scheduleSource. unfold node_end, newSource.
    cbn [node_when node_buffer]. lra.
  - intros _. unfold idleTimerFired. destruct (idleTimeout s); simpl; lra.
Qed.

(** X3.  [nextStartTime] only moves forward as long as the audio is not
    stopped: along a run with no [disconnectLive] and no server message
    flagged [interrupted] it never decreases. *)
Theorem planned_end_only_moves_forward
    (s : State) (tr : list Event) (Hkeep : Forall keepsAudio tr) :
  (nextStartTime s <= nextStartTime (run s tr))%Q.
Proof.
  revert s. induction Hkeep as [|e tr He _ IH]; intros s; [simpl; lra|].
  simpl. pose proof (step_keeps_audio_ahead s e He). specialize (IH (step s e)).
  lra.
Qed.

Lemma planned_end_only_moves_forward_witness :
  let s := enqueue initial halfSecond in
  let tr := [audioMessage "BBBB"; DecodeSettled 0 (Some (pcm 7200)) 0;
             SourceEnded 0; turnCompleted] in
  Forall keepsAudio tr ∧
  (nextStartTime s <= nextStartTime (run s tr))%Q.
Proof.
  intros s tr.
  assert (Forall keepsAudio tr) as Hkeep by (repeat constructor).
  split; [exact Hkeep|]. exact (planned_end_only_moves_forward s tr Hkeep).
Defined.

Lemma wellKept_same s s' :
  started s' = started s → created s' = created s →
  audioSources s' = audioSources s → stopped s' = stopped s →
  wellKept s → wellKept s'.
Proof. unfold wellKept. by intros -> -> -> ->. Qed.

Lemma wellKept_ids s n :
  wellKept s → n ∈ audioSources s → node_id n < created s.
Proof.
  intros (Hids & Hsub & _) Hn.
  assert (node_id n ∈ node_id <$> started s) as Hin.
  { apply list_elem_of_fmap_2. by eapply elem_of_sublist. }
  rewrite Hids in Hin. apply elem_of_seq in Hin. lia.
Qed.

Lemma wellKept_stopAll s s' :
  started s' = started s → created s' = created s →
  audioSources s' = [] →
  stopped s' = stopped s ++ map node_id (audioSources s) →
  wellKept s → wellKept s'.
Proof.
  intros Hst Hcr Hsrc Hstop Hkept.
  pose proof Hkept as (Hids & Hsub & Hstopped).
  unfold wellKept. rewrite Hst, Hcr, Hsrc, Hstop.
  split; [done|]. split; [apply sublist_nil_l|].
  apply Forall_app. split; [done|].
  apply Forall_forall. intros k (n & -> & Hn)%list_elem_of_fmap.
  by apply wellKept_ids.
Qed.

Lemma step_wellKept s e : wellKept s → wellKept (step s e).
Proof.
  intros Hkept.
  destruct e as [idOut idIn msg|i o now|k| | | |newId r t|d|p]; simpl;
    try done.
  - destruct (onmessage_scheduler idOut idIn msg s)
      as (_ & Hsrc & Hstop & Hst & _ & Hcr & _).
    destruct (cancels msg).
    + by apply (wellKept_stopAll s).
    + by apply (wellKept_same s).
  - destruct (resume_cases i o now s)
      as [[_ ->]|[(d & b & _ & _ & ->)|(d & _ & _ & ->)]]; [done| |done].
    destruct Hkept as (Hids & Hsub & Hstopped).
    set (s0 := set_decoding (delete i (decoding s)) s).
    unfold wellKept.
    rewrite started_scheduleSource, audioSources_scheduleSource.
    change (created (scheduleSource d b now s0)) with (S (created s)).
    change (stopped (scheduleSource d b now s0)) with (stopped s).
    change (started s0) with (started s).
    change (audioSources s0) with (audioSources s).
    split; [|split].
    + rewrite fmap_app, Hids, seq_S. done.
    + by apply sublist_app.
    + eapply Forall_impl; [exact Hstopped|]. simpl. lia.
  - destruct Hkept as (Hids & Hsub & Hstopped).
    split; [done|]. split; [|done]. simpl.
    etrans; [apply sublist_filter|done].
  - unfold idleTimerFired. by destruct (idleTimeout s).
  - by apply (wellKept_stopAll s).
Qed.

Lemma reachable_wellKept s : reachable s → wellKept s.
Proof.
  induction 1 as [|s e _ IH]; [|by apply step_wellKept].
  split; [done|]. split; [done|constructor].
Qed.

(** X4.  At every reachable state the started sources carry the
    identities 0, 1, 2, ... in the order they were started, so no two
    share one; the active sources are started sources, in the order they
    were started; and every [stop] was called on a source that had been
    started. *)
Theorem source_bookkeeping_is_sound (s : State) (Hreach : reachable s) :
  node_id <$> started s = seq 0 (created s) ∧
  NoDup (node_id <$> started s) ∧
  NoDup (node_id <$> audioSources s) ∧
  audioSources s `sublist_of` started s ∧
  ∀ k, k ∈ stopped s → ∃ n, n ∈ started s ∧ node_id n = k.
Proof.
  destruct (reachable_wellKept s Hreach) as (Hids & Hsub & Hstopped).
  assert (NoDup (node_id <$> started s)) as Hnodup
    by (rewrite Hids; apply NoDup_seq).
  split; [done|]. split; [done|].
  split; [by eapply sublist_NoDup, fmap_sublist|].
  split; [done|].
  intros k Hk. rewrite Forall_forall in Hstopped.
  assert (k ∈ node_id <$> started s) as Hin.
  { rewrite Hids. apply elem_of_seq. specialize (Hstopped k Hk). lia. }
  apply list_elem_of_fmap in Hin as (n & -> & Hn). eauto.
Qed.

Lemma source_bookkeeping_is_sound_witness :
  let s := run initial (overtaking ++ [Disconnect; TtsAudio "CCCC";
                                       DecodeSettled 0 (Some (pcm 4800)) 9]) in
  reachable s ∧
  node_id <$> started s = [0; 1; 2] ∧
  node_id <$> audioSources s = [2] ∧
  stopped s = [0; 1] ∧
  NoDup (node_id <$> audioSources s).
Proof.
  intros s.
  assert (reachable s) as Hreach by apply reachable_run, reachable_initial.
  destruct (source_bookkeeping_is_sound s Hreach) as (_ & _ & Hnodup & _).
  repeat split; try reflexivity; [exact Hreach|exact Hnodup].
Defined.

Lemma filter_all {A} (P : A → Prop) `{∀ x, Decision (P x)} (l : list A) :
  Forall P l → filter P l = l.
Proof.
  induction 1 as [|x l Hx _ IH]; [done|].
  by rewrite filter_cons_True, IH.
Qed.

(** X5.  When an active source fires [onended], exactly that source
    leaves the active set: the sources before it and after it stay, in
    their order, and nothing else of the scheduler changes. *)
Theorem onended_removes_exactly_that_source
    (s : State) (Hreach : reachable s)
    (n : AudioBufferSourceNode) (Hn : n ∈ audioSources s) :
  let s' := step s (SourceEnded (node_id n)) in
  (∃ before after,
      audioSources s = before ++ n :: after ∧
      audioSources s' = before ++ after) ∧
  (n ∉ audioSources s') ∧
  length (audioSources s') + 1 = length (audioSources s) ∧
  nextStartTime s' = nextStartTime s ∧
  started s' = started s ∧
  stopped s' = stopped s.
Proof.
  destruct (source_bookkeeping_is_sound s Hreach) as (_ & _ & Hnodup & _).
  apply list_elem_of_split in Hn as (before & after & Hsplit).
  rewrite Hsplit, fmap_app, fmap_cons in Hnodup.
  apply NoDup_app in Hnodup as (_ & Hbefore & Hrest).
  apply NoDup_cons in Hrest as [Hafter _].
  assert (filter (λ x, node_id x ≠ node_id n) (audioSources s) =
          before ++ after) as Hfilter.
  { rewrite Hsplit, filter_app, filter_cons_False by (intros Hne; by apply Hne).
    f_equal; apply filter_all, Forall_forall; intros x Hx Heq.
    - apply (Hbefore (node_id x)); [by apply list_elem_of_fmap_2|].
      rewrite Heq. apply elem_of_cons. by left.
    - apply Hafter. rewrite <-Heq. by apply list_elem_of_fmap_2. }
  cbn zeta. simpl step. unfold sourceEnded. simpl.
  rewrite Hfilter.
  split; [by exists before, after|].
  split.
  { intros [Hin|Hin]%elem_of_app.
    - apply (Hbefore (node_id n)); [by apply list_elem_of_fmap_2|].
      apply elem_of_cons. by left.
    - apply Hafter. by apply list_elem_of_fmap_2. }
  split; [|done]. rewrite Hsplit, !length_app. simpl. lia.
Qed.

Lemma onended_removes_exactly_that_source_witness :
  let s :=
    run initial [TtsAudio "AAAA"; DecodeSettled 0 (Some (pcm 12000)) 7;
                 TtsAudio "BBBB"; DecodeSettled 0 (Some (pcm 7200)) 7;
                 TtsAudio "CCCC"; DecodeSettled 0 (Some (pcm 4800)) 7] in
  let n := mkSource 1 "BBBB" (pcm 7200) (7 + (12000 # 24000))%Q in
  reachable s ∧ n ∈ audioSources s ∧
  node_id <$> audioSources (step s (SourceEnded 1)) = [0; 2] ∧
  (n ∉ audioSources (step s (SourceEnded 1))).
Proof.
  intros s n.
  assert (reachable s) as Hreach by apply reachable_run, reachable_initial.
  assert (n ∈ audioSources s) as Hn
    by (apply list_elem_of_lookup; exists 1; vm_compute; reflexivity).
  destruct (onended_removes_exactly_that_source s Hreach n Hn)
    as (_ & Hout & _).
  split; [exact Hreach|]. split; [exact Hn|].
  split; [vm_compute; reflexivity|exact Hout].
Defined.

(** ** Transcripts: what the accumulators and the chat hold *)

Lemma string_app_assoc (a b c : string) : (a +:+ b) +:+ c = a +:+ (b +:+ c).
Proof.
  induction a as [|x a IH]; [done|].
  change (String x ((a +:+ b) +:+ c) = String x (a +:+ (b +:+ c))).
  by rewrite IH.
Qed.

Lemma string_app_nil_r (a : string) : a +:+ "" = a.
Proof.
  induction a as [|x a IH]; [done|].
  change (String x (a +:+ "") = String x a). by rewrite IH.
Qed.

Lemma string_app_nonempty_r (a b : string) : b ≠ "" → a +:+ b ≠ "".
Proof. destruct a; [done|]. by intros _. Qed.

Lemma truthy_Some o t : truthy o = Some t → o = Some t ∧ t ≠ "".
Proof.
  destruct o as [t'|]; simpl; [|done].
  case_bool_decide; [done|]. by intros [= ->].
Qed.

Lemma accumulator_other newId r r' d s :
  r' ≠ r → accumulator r' (append newId r d s) = accumulator r' s.
Proof. by destruct r, r'. Qed.

(** A server message that is no turn boundary is its deltas, the model's
    first, after [playAudioChunk] on its audio. *)
Lemma onmessage_within_turn idOut idIn msg s base64Audio :
  inlineData msg = Some base64Audio →
  turnComplete msg = false → interrupted msg = false →
  onmessage idOut idIn msg s =
  whenSome (truthy (inputTranscription msg)) (append idIn user)
    (whenSome (truthy (outputTranscription msg)) (append idOut model)
       (whenSome (truthy base64Audio) playAudioChunk s)).
Proof.
  intros Hread Ht Hi. rewrite (onmessage_blocks _ _ _ _ _ Hread), Ht, Hi. done.
Qed.

Lemma accumulator_step r s e :
  withinTurn e → accumulator r (step s e) = accumulator r s +:+ deltaOf r e.
Proof.
  destruct e as [idOut idIn msg|i o now|k| | | |newId r' t|d|p]; simpl;
    try done; try (intros _; rewrite string_app_nil_r; by destruct r).
  - intros [Ht Hi].
    destruct (inlineData msg) as [base64Audio|] eqn:Hread;
      [|rewrite onmessage_throws by done; by rewrite string_app_nil_r].
    rewrite (onmessage_within_turn _ _ _ _ _ Hread) by done.
    set (s1 := whenSome (truthy base64Audio) playAudioChunk s).
    assert (accumulator r s1 = accumulator r s) as <-.
    { subst s1. destruct (truthy base64Audio); by destruct r. }
    destruct r; simpl;
      destruct (truthy (outputTranscription msg)),
               (truthy (inputTranscription msg));
      simpl; by rewrite ?string_app_nil_r.
  - intros _. rewrite string_app_nil_r.
    destruct (resume_cases i o now s)
      as [[_ ->]|[(d & b & _ & _ & ->)|(d & _ & _ & ->)]]; by destruct r.
  - intros _. rewrite string_app_nil_r. unfold idleTimerFired.
    destruct (idleTimeout s); by destruct r.
Qed.

Lemma messagesOf_snoc r l m :
  messagesOf r (l ++ [m]) =
  messagesOf r l ++ (if decide (role m = r) then [m] else []).
Proof.
  unfold messagesOf. by rewrite filter_app.
Qed.

Lemma showsAccumulator_append newId r d s r' :
  d ≠ "" → showsAccumulator r' s → showsAccumulator r' (append newId r d s).
Proof.
  intros Hd Hshow. unfold showsAccumulator, shown in *.
  rewrite messages_append.
  destruct (decide (r' = r)) as [->|Hother].
  - right. rewrite accumulator_append.
    split; [by apply string_app_nonempty_r|].
    destruct (snoc_view (messages s)) as [->|(l & m & ->)].
    { rewrite updateLiveMessage_nil. unfold messagesOf.
      rewrite filter_cons_True by done. done. }
    rewrite updateLiveMessage_snoc.
    destruct (liveFor r (Some m)) eqn:Hlive.
    + apply liveFor_Some in Hlive as [Hr _].
      rewrite messagesOf_snoc. simpl. rewrite decide_True by done.
      by rewrite last_snoc.
    + rewrite messagesOf_snoc. simpl. rewrite decide_True by done.
      by rewrite last_snoc.
  - rewrite accumulator_other by done.
    assert (messagesOf r'
              (updateLiveMessage newId r (accumulator r s +:+ d) (messages s)) =
            messagesOf r' (messages s)) as ->; [|done].
    destruct (snoc_view (messages s)) as [->|(l & m & ->)].
    { rewrite updateLiveMessage_nil. unfold messagesOf.
      by rewrite filter_cons_False by (simpl; congruence). }
    rewrite updateLiveMessage_snoc.
    destruct (liveFor r (Some m)) eqn:Hlive.
    + apply liveFor_Some in Hlive as [Hr _].
      rewrite !messagesOf_snoc. simpl.
      by rewrite !decide_False by congruence.
    + rewrite (messagesOf_snoc r' (l ++ [m])). simpl.
      rewrite decide_False by congruence. by rewrite app_nil_r.
Qed.

Lemma showsAccumulator_frame r s s' :
  messages s' = messages s → accumulator r s' = accumulator r s →
  showsAccumulator r s → showsAccumulator r s'.
Proof. unfold showsAccumulator, shown. by intros -> ->. Qed.

Lemma showsAccumulator_step r s e :
  withinTurn e → showsAccumulator r s → showsAccumulator r (step s e).
Proof.
  destruct e as [idOut idIn msg|i o now|k| | | |newId r' t|d|p]; simpl;
    try done;
    try (intros _ Hshow; apply (showsAccumulator_frame r s);
         [done|by destruct r|done]).
  - intros [Ht Hi] Hshow.
    destruct (inlineData msg) as [base64Audio|] eqn:Hread;
      [|by rewrite onmessage_throws].
    rewrite (onmessage_within_turn _ _ _ _ _ Hread) by done.
    set (s1 := whenSome (truthy base64Audio) playAudioChunk s).
    assert (showsAccumulator r s1) as H1.
    { subst s1. destruct (truthy base64Audio); [|done].
      apply (showsAccumulator_frame r s); [done|by destruct r|done]. }
    set (s2 := whenSome (truthy (outputTranscription msg)) _ s1).
    assert (showsAccumulator r s2) as H2.
    { subst s2. destruct (truthy (outputTranscription msg)) as [d|] eqn:Hd;
        cbn [whenSome]; [|done].
      apply truthy_Some in Hd as [_ Hd]. by apply showsAccumulator_append. }
    destruct (truthy (inputTranscription msg)) as [d|] eqn:Hd;
      cbn [whenSome]; [|done].
    apply truthy_Some in Hd as [_ Hd]. by apply showsAccumulator_append.
  - intros _ Hshow.
    destruct (resume_cases i o now s)
      as [[_ ->]|[(d & b & _ & _ & ->)|(d & _ & _ & ->)]]; [done| |];
      (apply (showsAccumulator_frame r s); [done|by destruct r|done]).
  - intros _ Hshow. unfold idleTimerFired.
    destruct (idleTimeout s); [|done].
    apply (showsAccumulator_frame r s); [done|by destruct r|done].
Qed.

Lemma run_accumulator r tr s :
  Forall withinTurn tr →
  accumulator r (run s tr) = accumulator r s +:+ deltasOf r tr.
Proof.
  intros Hturn. revert s. induction Hturn as [|e tr He _ IH]; intros s.
  - simpl. by rewrite string_app_nil_r.
  - simpl. rewrite IH, accumulator_step by done. apply string_app_assoc.
Qed.

Lemma run_showsAccumulator r tr s :
  Forall withinTurn tr → showsAccumulator r s → showsAccumulator r (run s tr).
Proof.
  intros Hturn. revert s. induction Hturn as [|e tr He _ IH]; intros s Hs;
    [done|].
  simpl. by apply IH, showsAccumulator_step.
Qed.

(** X6.  Within a turn of a live session each role's accumulator collects
    the role's deltas in arrival order, whatever the other role's deltas,
    the audio and the timers do in between; from the initial state the
    most recent message of the role shows exactly these deltas, and a role
    without deltas has no message.  The deltas that count are those of
    the messages that get past line 311: a message whose [modelTurn] has
    no [parts] throws there and its deltas are never taken. *)
Theorem deltas_accumulate_in_arrival_order
    (r : Role) (s : State) (tr : list Event)
    (Hturn : Forall withinTurn tr) :
  accumulator r (run s tr) = accumulator r s +:+ deltasOf r tr ∧
  accumulator r (run initial tr) = deltasOf r tr ∧
  (deltasOf r tr ≠ "" → shown r (run initial tr) = Some (deltasOf r tr)) ∧
  (deltasOf r tr = "" → messagesOf r (messages (run initial tr)) = []).
Proof.
  assert (accumulator r (run initial tr) = deltasOf r tr) as Hinit.
  { rewrite run_accumulator by done. by destruct r. }
  split; [by apply run_accumulator|]. split; [done|].
  assert (showsAccumulator r initial) as H0 by (left; by destruct r).
  destruct (run_showsAccumulator r tr initial Hturn H0)
    as [[Hempty Hnone]|[Hsome Hlast]]; rewrite Hinit in *; by split.
Qed.

Lemma deltas_accumulate_in_arrival_order_witness :
  let tr := [outputDelta "1" "Hel"; inputDelta "2" "wait";
             ServerMessage "9" ""
               (mkServerMessage (Some WithoutParts) (Some "XX") None false
                  false);
             audioMessage "AAAA"; outputDelta "3" "lo"] in
  Forall withinTurn tr ∧
  deltasOf model tr = "Hello" ∧
  accumulator model (run initial tr) = "Hello" ∧
  shown model (run initial tr) = Some "Hello".
Proof.
  intros tr.
  assert (Forall withinTurn tr) as Hturn by (repeat constructor).
  destruct (deltas_accumulate_in_arrival_order model initial tr Hturn)
    as (_ & Hacc & Hshown & _).
  split; [exact Hturn|]. split; [reflexivity|]. split; [exact Hacc|].
  apply Hshown. discriminate.
Defined.

Lemma updateLiveMessage_Forall (P : ChatMessage → Prop) newId r t l :
  (∀ i r' f, P (mkMsg i r' t f)) →
  Forall P l → Forall P (updateLiveMessage newId r t l).
Proof.
  intros Ht Hl. destruct (snoc_view l) as [->|(l' & m & ->)].
  { rewrite updateLiveMessage_nil. by repeat constructor. }
  rewrite updateLiveMessage_snoc. apply Forall_app in Hl as [Hl' Hm].
  destruct (liveFor r (Some m)).
  - apply Forall_app. split; [done|]. by repeat constructor.
  - repeat (apply Forall_app; split); try done. by repeat constructor.
Qed.

Lemma finalizeMessage_Forall (P : ChatMessage → Prop) r t l :
  (∀ i r' f, P (mkMsg i r' t f)) →
  Forall P l → Forall P (finalizeMessage r t l).
Proof.
  intros Ht Hl. destruct (snoc_view l) as [->|(l' & m & ->)]; [done|].
  rewrite finalizeMessage_snoc. destruct (liveFor r (Some m)); [|done].
  apply Forall_app in Hl as [Hl' Hm].
  apply Forall_app. split; [done|]. by repeat constructor.
Qed.

Lemma append_nonempty newId r d s :
  d ≠ "" →
  Forall (λ m, text m ≠ "") (messages s) →
  Forall (λ m, text m ≠ "") (messages (append newId r d s)).
Proof.
  intros Hd Hall. rewrite messages_append.
  apply updateLiveMessage_Forall; [|done].
  intros. simpl. by apply string_app_nonempty_r.
Qed.

Lemma finalize_nonempty r s :
  Forall (λ m, text m ≠ "") (messages s) →
  Forall (λ m, text m ≠ "") (messages (finalize r s)).
Proof.
  intros Hall. rewrite messages_finalize. case_bool_decide; [done|].
  by apply finalizeMessage_Forall.
Qed.

Lemma onmessage_nonempty idOut idIn msg s :
  Forall (λ m, text m ≠ "") (messages s) →
  Forall (λ m, text m ≠ "") (messages (onmessage idOut idIn msg s)).
Proof.
  intros Hs.
  destruct (inlineData msg) as [base64Audio|] eqn:Hread;
    [|by rewrite onmessage_throws].
  rewrite (onmessage_blocks _ _ _ _ _ Hread).
  set (s1 := whenSome (truthy base64Audio) playAudioChunk s).
  assert (Forall (λ m, text m ≠ "") (messages s1)) as H1.
  { subst s1. by destruct (truthy base64Audio). }
  set (s2 := whenSome (truthy (outputTranscription msg)) _ s1).
  assert (Forall (λ m, text m ≠ "") (messages s2)) as H2.
  { subst s2. destruct (truthy (outputTranscription msg)) as [d|] eqn:Hd;
      cbn [whenSome]; [|done].
    apply truthy_Some in Hd as [_ Hd]. by apply append_nonempty. }
  set (s3 := whenSome (truthy (inputTranscription msg)) _ s2).
  assert (Forall (λ m, text m ≠ "") (messages s3)) as H3.
  { subst s3. destruct (truthy (inputTranscription msg)) as [d|] eqn:Hd;
      cbn [whenSome]; [|done].
    apply truthy_Some in Hd as [_ Hd]. by apply append_nonempty. }
  set (s4 := whenTrue (turnComplete msg) _ s3).
  assert (Forall (λ m, text m ≠ "") (messages s4)) as H4.
  { subst s4. destruct (turnComplete msg); cbn [whenTrue]; [|done].
    by apply finalize_nonempty, finalize_nonempty. }
  by destruct (interrupted msg).
Qed.

(** X7.  The chat never holds an empty message: as long as no empty text
    is typed in text mode, every message of every state of a run from a
    state without empty messages has a text that is not empty.  A delta
    is only taken when it is not empty and a message is only finalized
    from an accumulator that is not empty. *)
Theorem messages_are_never_empty
    (s : State) (tr : list Event)
    (Hs : Forall (λ m, text m ≠ "") (messages s))
    (Htyped : Forall typedNonEmpty tr) :
  Forall (λ m, text m ≠ "") (messages (run s tr)).
Proof.
  revert s Hs. induction Htyped as [|e tr He _ IH]; intros s Hs; [done|].
  simpl. apply IH.
  destruct e as [idOut idIn msg|i o now|k| | | |newId r t|d|p]; simpl;
    try done.
  - by apply onmessage_nonempty.
  - by rewrite messages_resume.
  - by rewrite messages_idleTimerFired.
  - apply Forall_app. split; [done|]. by repeat constructor.
Qed.

Lemma messages_are_never_empty_witness :
  let tr := [inputDelta "1" "hi";
             ServerMessage "2" "" (mkServerMessage None (Some "") None true true);
             outputDelta "3" "yes"; turnCompleted;
             TextMessage "4" user "typed"] in
  Forall typedNonEmpty tr ∧
  length (messages (run initial tr)) = 3 ∧
  Forall (λ m, text m ≠ "") (messages (run initial tr)).
Proof.
  intros tr.
  assert (Forall typedNonEmpty tr) as Htyped by (repeat constructor; done).
  split; [exact Htyped|]. split; [reflexivity|].
  exact (messages_are_never_empty initial tr (Forall_nil_2 _) Htyped).
Defined.

Lemma identity_prefix_update newId r t (l0 l : list ChatMessage) :
  identity <$> l0 `prefix_of` identity <$> l →
  identity <$> l0 `prefix_of` identity <$> updateLiveMessage newId r t l.
Proof.
  intros Hpre. destruct (snoc_view l) as [->|(l' & m & ->)].
  { rewrite updateLiveMessage_nil. etrans; [exact Hpre|]. apply prefix_nil. }
  rewrite updateLiveMessage_snoc. destruct (liveFor r (Some m)).
  - by rewrite fmap_app in *.
  - rewrite (fmap_app _ (l' ++ [m])). by apply prefix_app_r.
Qed.

Lemma identity_prefix_finalize r t (l0 l : list ChatMessage) :
  identity <$> l0 `prefix_of` identity <$> l →
  identity <$> l0 `prefix_of` identity <$> finalizeMessage r t l.
Proof.
  intros Hpre. destruct (snoc_view l) as [->|(l' & m & ->)]; [done|].
  rewrite finalizeMessage_snoc. destruct (liveFor r (Some m)); [|done].
  by rewrite fmap_app in *.
Qed.

Lemma step_identity_prefix (l0 : list ChatMessage) s e :
  identity <$> l0 `prefix_of` identity <$> messages s →
  identity <$> l0 `prefix_of` identity <$> messages (step s e).
Proof.
  intros Hpre.
  destruct e as [idOut idIn msg|i o now|k| | | |newId r t|d|p]; simpl;
    try done.
  - apply (onmessage_messages_ind
             (λ l, identity <$> l0 `prefix_of` identity <$> l)); [| |done].
    + intros. by apply identity_prefix_update.
    + intros. by apply identity_prefix_finalize.
  - by rewrite messages_resume.
  - by rewrite messages_idleTimerFired.
  - unfold addMessage. rewrite fmap_app. by apply prefix_app_r.
Qed.

Lemma run_identity_prefix (l0 : list ChatMessage) tr s :
  identity <$> l0 `prefix_of` identity <$> messages s →
  identity <$> l0 `prefix_of` identity <$> messages (run s tr).
Proof.
  revert s. induction tr as [|e tr IH]; intros s Hpre; [done|].
  simpl. by apply IH, step_identity_prefix.
Qed.

Lemma length_updateLiveMessage newId r t l :
  length l ≤ length (updateLiveMessage newId r t l) ≤ S (length l).
Proof.
  destruct (snoc_view l) as [->|(l' & m & ->)]; [simpl; lia|].
  rewrite updateLiveMessage_snoc.
  destruct (liveFor r (Some m)); rewrite !length_app; simpl; lia.
Qed.

Lemma length_finalizeMessage r t l :
  length (finalizeMessage r t l) = length l.
Proof.
  destruct (snoc_view l) as [->|(l' & m & ->)]; [done|].
  rewrite finalizeMessage_snoc.
  destruct (liveFor r (Some m)); by rewrite !length_app.
Qed.

Lemma length_finalize r s :
  length (messages (finalize r s)) = length (messages s).
Proof.
  rewrite messages_finalize. case_bool_decide; [done|].
  apply length_finalizeMessage.
Qed.

Lemma length_append newId r d s :
  length (messages (append newId r d s)) ≤ S (length (messages s)).
Proof. rewrite messages_append. apply length_updateLiveMessage. Qed.

Lemma length_onmessage idOut idIn msg s :
  length (messages (onmessage idOut idIn msg s)) ≤ length (messages s) + 2.
Proof.
  destruct (inlineData msg) as [base64Audio|] eqn:Hread;
    [|rewrite onmessage_throws by done; lia].
  rewrite (onmessage_blocks _ _ _ _ _ Hread).
  set (s1 := whenSome (truthy base64Audio) playAudioChunk s).
  assert (length (messages s1) = length (messages s)) as H1.
  { subst s1. by destruct (truthy base64Audio). }
  set (s2 := whenSome (truthy (outputTranscription msg)) _ s1).
  assert (length (messages s2) ≤ S (length (messages s1))) as H2.
  { subst s2. destruct (truthy (outputTranscription msg));
      cbn [whenSome]; [apply length_append|lia]. }
  set (s3 := whenSome (truthy (inputTranscription msg)) _ s2).
  assert (length (messages s3) ≤ S (length (messages s2))) as H3.
  { subst s3. destruct (truthy (inputTranscription msg));
      cbn [whenSome]; [apply length_append|lia]. }
  set (s4 := whenTrue (turnComplete msg) _ s3).
  assert (length (messages s4) = length (messages s3)) as H4.
  { subst s4. destruct (turnComplete msg); cbn [whenTrue]; [|done].
    by rewrite !length_finalize. }
  assert (length (messages (whenTrue (interrupted msg) onInterrupted s4)) =
          length (messages s4)) as H5 by by destruct (interrupted msg).
  lia.
Qed.

(** X8.  Messages keep their place and their identity: along every run
    the identifiers and roles of the messages of the earlier state are an
    initial segment of those of the later state, so the list never
    shrinks, is never reordered and no message changes its [id] or its
    [role].  One server message adds at most two messages, one for each
    role. *)
Theorem messages_keep_place_and_identity
    (s : State) (tr : list Event)
    (idOut idIn : string) (msg : LiveServerMessage) :
  identity <$> messages s `prefix_of` identity <$> messages (run s tr) ∧
  length (messages s) ≤ length (messages (run s tr)) ∧
  length (messages (onmessage idOut idIn msg s)) ≤ length (messages s) + 2.
Proof.
  assert (identity <$> messages s `prefix_of`
          identity <$> messages (run s tr)) as Hpre
    by by apply run_identity_prefix.
  split; [done|]. split; [|apply length_onmessage].
  apply prefix_length in Hpre. by rewrite !length_fmap in Hpre.
Qed.

Lemma append_last newId r d s :
  ∃ l i,
    messages (append newId r d s) =
    l ++ [mkMsg i r (accumulator r s +:+ d) false].
Proof.
  rewrite messages_append.
  destruct (snoc_view (messages s)) as [->|(l & m & ->)].
  { exists [], newId. by rewrite updateLiveMessage_nil. }
  rewrite updateLiveMessage_snoc.
  destruct (liveFor r (Some m)) eqn:Hlive.
  - apply liveFor_Some in Hlive as [-> ->]. by exists l, (id m).
  - by exists (l ++ [m]), newId.
Qed.

Lemma finalizeMessage_other_role r r' t l i t' f :
  r ≠ r' →
  finalizeMessage r t (l ++ [mkMsg i r' t' f]) = l ++ [mkMsg i r' t' f].
Proof.
  intros Hne. rewrite finalizeMessage_snoc. simpl.
  by rewrite bool_decide_eq_false_2 by congruence.
Qed.

Lemma finalizeMessage_final r t l i r' t' :
  finalizeMessage r t (l ++ [mkMsg i r' t' true]) = l ++ [mkMsg i r' t' true].
Proof. rewrite finalizeMessage_snoc. simpl. by rewrite andb_false_r. Qed.

Lemma finalizeMessage_open r t l i t' :
  finalizeMessage r t (l ++ [mkMsg i r t' false]) = l ++ [mkMsg i r t true].
Proof.
  rewrite finalizeMessage_snoc. simpl. by rewrite bool_decide_eq_true_2.
Qed.

(** The list after a delta of role [r] is taken and both roles are
    finalized, as the turn-complete block does. *)
Lemma finalize_after_append newId r d s :
  d ≠ "" →
  ∃ l i,
    messages (finalize user (finalize model (append newId r d s))) =
    l ++ [mkMsg i r (accumulator r s +:+ d) true].
Proof.
  intros Hd. destruct (append_last newId r d s) as (l & i & Hl).
  exists l, i.
  pose proof (accumulator_append newId r d s) as Hacc.
  assert (accumulator r (append newId r d s) ≠ "") as Hne.
  { rewrite Hacc. by apply string_app_nonempty_r. }
  set (s1 := append newId r d s) in *.
  destruct r.
  - (* a delta of the user: the model's block leaves the list alone *)
    assert (messages (finalize model s1) = messages s1) as Hm.
    { rewrite messages_finalize, Hl. case_bool_decide; [done|].
      by apply finalizeMessage_other_role. }
    assert (accumulator user (finalize model s1) = accumulator user s1) as Ha.
    { simpl. unfold finalizeOutput. by case_bool_decide. }
    rewrite messages_finalize, Ha, Hm, Hl.
    rewrite bool_decide_eq_false_2 by done.
    by rewrite finalizeMessage_open, Hacc.
  - (* a delta of the model: the user's block finds a final message *)
    assert (messages (finalize model s1) =
            l ++ [mkMsg i model (accumulator model s +:+ d) true]) as Hm.
    { rewrite messages_finalize, Hl.
      rewrite bool_decide_eq_false_2 by done.
      by rewrite finalizeMessage_open, Hacc. }
    rewrite messages_finalize, Hm. case_bool_decide; [done|].
    apply finalizeMessage_final.
Qed.

(** X9.  A delta that arrives in the message that completes the turn is
    not lost: when a server message flagged [turnComplete] gets past
    line 311 (its [modelTurn], if it has one, has [parts]) and carries a
    delta of one role only, the message of that role ends the list,
    final, with the accumulated text including the delta, and both
    accumulators are empty afterwards. *)
Theorem delta_of_completing_message_is_finalized
    (idOut idIn : string) (msg : LiveServerMessage) (s : State)
    (r : Role) (d : string) (base64Audio : option string)
    (Hread : inlineData msg = Some base64Audio)
    (Hdelta : truthy (transcription r msg) = Some d)
    (Hother :
       truthy (transcription (match r with model => user | user => model end)
                 msg) = None)
    (Hturn : turnComplete msg = true) :
  let s' := onmessage idOut idIn msg s in
  (∃ m, last (messages s') = Some m ∧ role m = r ∧ isFinal m = true ∧
        text m = accumulator r s +:+ d) ∧
  currentOutputTrans s' = "" ∧ currentInputTrans s' = "".
Proof.
  cbn zeta. rewrite (onmessage_blocks _ _ _ _ _ Hread), Hturn.
  set (s1 := whenSome (truthy base64Audio) playAudioChunk s).
  assert (messages s1 = messages s ∧ accumulator r s1 = accumulator r s)
    as [Hm1 Ha1].
  { subst s1. destruct (truthy base64Audio); by destruct r. }
  apply truthy_Some in Hdelta as Hd. destruct Hd as [_ Hd].
  assert (∃ newId,
    whenSome (truthy (inputTranscription msg)) (append idIn user)
      (whenSome (truthy (outputTranscription msg)) (append idOut model) s1) =
    append newId r d s1) as [newId ->].
  { destruct r; simpl in Hdelta, Hother; rewrite Hdelta, Hother; eauto. }
  cbn [whenTrue].
  destruct (finalize_after_append newId r d s1 Hd) as (l & i & Hfin).
  split.
  - exists (mkMsg i r (accumulator r s1 +:+ d) true).
    rewrite <-Ha1.
    assert (messages (whenTrue (interrupted msg) onInterrupted
                       (finalize user (finalize model (append newId r d s1))))
            = l ++ [mkMsg i r (accumulator r s1 +:+ d) true]) as ->
      by (by destruct (interrupted msg)).
    by rewrite last_snoc.
  - pose proof (accumulator_finalize user
                  (finalize model (append newId r d s1))) as Hin.
    pose proof (accumulator_finalize model (append newId r d s1)) as Hout.
    simpl in Hin, Hout.
    assert (currentOutputTrans
              (finalize user (finalize model (append newId r d s1))) = "")
      as Hout'.
    { rewrite <-Hout. unfold finalize at 1, finalizeInput.
      by case_bool_decide. }
    by destruct (interrupted msg).
Qed.

Lemma delta_of_completing_message_is_finalized_witness :
  let s := run initial [outputDelta "1" "See you"] in
  let msg :=
    mkServerMessage (Some (WithParts (Some "AAAA"))) (Some " soon") None true
      false in
  truthy (transcription model msg) = Some " soon" ∧
  truthy (transcription user msg) = None ∧
  messages (onmessage "2" "3" msg s) = [mkMsg "1" model "See you soon" true] ∧
  ∃ m, last (messages (onmessage "2" "3" msg s)) = Some m ∧ isFinal m = true.
Proof.
  intros s msg.
  destruct (delta_of_completing_message_is_finalized "2" "3" msg s model
              " soon" (Some "AAAA") eq_refl eq_refl eq_refl eq_refl)
    as [(m & Hlast & _ & Hfinal & _) _].
  split; [reflexivity|]. split; [reflexivity|]. split; [reflexivity|].
  exists m. split; [exact Hlast|exact Hfinal].
Defined.

(** ** Cropping an avatar image *)

Lemma Math_round_spec (a : Z) (b : positive) :
  (2 * Z.pos b * Math_round (a # b) <= 2 * a + Z.pos b <
   2 * Z.pos b * Math_round (a # b) + 2 * Z.pos b)%Z.
Proof.
  unfold Math_round.
  pose proof (Qfloor_le ((a # b) + (1 # 2))) as Hle.
  pose proof (Qlt_floor ((a # b) + (1 # 2))) as Hlt.
  set (r := Qfloor ((a # b) + (1 # 2))) in *.
  unfold Qle, Qlt, Qplus, inject_Z in *. simpl in *. nia.
Qed.

Lemma Math_round_eq x a b : (x == a # b)%Q → Math_round x = Math_round (a # b).
Proof. intros H. unfold Math_round. apply Qfloor_comp. by rewrite H. Qed.

(** The three branches of [cropRect] on an image with positive sides, in
    integers. *)
Lemma cropRect_cases (iw ih : positive) :
  let c := cropRect (N.pos iw) (N.pos ih) in
  ((5 * Z.pos ih < 6 * Z.pos iw)%Z ∧
   sw c = Math_round ((5 * Z.pos ih) # 6) ∧
   sx c = Math_round ((Z.pos iw - sw c) # 2) ∧ sy c = 0%Z ∧
   sh c = Z.pos ih) ∨
  ((6 * Z.pos iw < 5 * Z.pos ih)%Z ∧
   sh c = Math_round ((6 * Z.pos iw) # 5) ∧
   sy c = Math_round ((18 * (Z.pos ih - sh c)) # 100) ∧ sx c = 0%Z ∧
   sw c = Z.pos iw) ∨
  ((6 * Z.pos iw = 5 * Z.pos ih)%Z ∧ c = mkCrop 0 0 (Z.pos iw) (Z.pos ih)).
Proof.
  unfold cropRect. cbn [divide greaterThan lessThan].
  change (Z.of_N (N.pos iw)) with (Z.pos iw).
  change (Z.of_N (N.pos ih)) with (Z.pos ih).
  destruct (Qlt_le_dec AVATAR_ASPECT _) as [Hwide|Hnot].
  - left. cbn [sx sy sw sh]. split.
    { unfold Qlt, AVATAR_ASPECT, Qdiv, Qmult, Qinv, inject_Z in Hwide.
      simpl in Hwide. lia. }
    split.
    { apply Math_round_eq.
      unfold Qeq, AVATAR_ASPECT, Qmult, inject_Z. simpl. lia. }
    split; [|done].
    apply Math_round_eq. unfold Qeq, Qdiv, Qmult, Qinv, inject_Z. simpl. lia.
  - destruct (Qlt_le_dec _ AVATAR_ASPECT) as [Htall|Hnot'].
    + right; left. cbn [sx sy sw sh]. split.
      { unfold Qlt, AVATAR_ASPECT, Qdiv, Qmult, Qinv, inject_Z in Htall.
        simpl in Htall. lia. }
      split.
      { apply Math_round_eq.
        unfold Qeq, AVATAR_ASPECT, Qdiv, Qmult, Qinv, inject_Z. simpl. lia. }
      split; [|done].
      apply Math_round_eq. unfold Qeq, Qmult, inject_Z. simpl. lia.
    + right; right. split; [|done].
      unfold Qle, AVATAR_ASPECT, Qdiv, Qmult, Qinv, inject_Z in Hnot, Hnot'.
      simpl in Hnot, Hnot'. lia.
Qed.

(** X10.  For an image with positive sides the rectangle
    [cropAndResizeDataUrl] hands to [drawImage] lies inside the image and
    is not empty; one side of the image is kept whole; and the rectangle
    has the avatar's 5:6 proportion up to the rounding
    ([|6 sw - 5 sh| <= 3]).  An image that is 5:6 already is taken
    whole. *)
Theorem crop_stays_within_image
    (iw ih : N) (Hw : iw ≠ 0%N) (Hh : ih ≠ 0%N) :
  let c := cropRect iw ih in
  (0 <= sx c)%Z ∧ (0 <= sy c)%Z ∧ (0 < sw c)%Z ∧ (0 < sh c)%Z ∧
  (sx c + sw c <= Z.of_N iw)%Z ∧ (sy c + sh c <= Z.of_N ih)%Z ∧
  (sw c = Z.of_N iw ∨ sh c = Z.of_N ih) ∧
  (-3 <= 6 * sw c - 5 * sh c <= 3)%Z ∧
  ((6 * Z.of_N iw = 5 * Z.of_N ih)%Z →
   c = mkCrop 0 0 (Z.of_N iw) (Z.of_N ih)).
Proof.
  destruct iw as [|iw]; [done|]. destruct ih as [|ih]; [done|].
  cbn zeta. change (Z.of_N (N.pos iw)) with (Z.pos iw).
  change (Z.of_N (N.pos ih)) with (Z.pos ih).
  destruct (cropRect_cases iw ih) as
    [(Hwide & Hsw & Hsx & Hsy & Hsh)|
     [(Htall & Hsh & Hsy & Hsx & Hsw)|[Heq ->]]].
  - pose proof (Math_round_spec (5 * Z.pos ih) 6) as H1. rewrite <-Hsw in H1.
    pose proof (Math_round_spec
                  (Z.pos iw - sw (cropRect (N.pos iw) (N.pos ih))) 2) as H2.
    rewrite <-Hsx in H2. rewrite Hsy, Hsh.
    repeat split; try lia.
  - pose proof (Math_round_spec (6 * Z.pos iw) 5) as H1. rewrite <-Hsh in H1.
    pose proof (Math_round_spec
                  (18 * (Z.pos ih - sh (cropRect (N.pos iw) (N.pos ih)))) 100)
      as H2.
    rewrite <-Hsy in H2. rewrite Hsx, Hsw.
    repeat split; try lia.
  - simpl. repeat split; try lia; done.
Qed.

Lemma crop_stays_within_image_witness :
  let c := cropRect 1000 1000 in
  c = mkCrop 84 0 833 1000 ∧
  (sx c + sw c <= 1000)%Z ∧ (-3 <= 6 * sw c - 5 * sh c <= 3)%Z.
Proof.
  intros c.
  assert (1000 ≠ 0)%N as Hpos by discriminate.
  destruct (crop_stays_within_image 1000 1000 Hpos Hpos)
    as (_ & _ & _ & _ & Hx & _ & _ & Hratio & _).
  split; [vm_compute; reflexivity|]. split; [exact Hx|exact Hratio].
Defined.

Lemma Math_round_comp x y : (x == y)%Q → Math_round x = Math_round y.
Proof. intros H. unfold Math_round. apply Qfloor_comp. by rewrite H. Qed.

(** X11.  [normalizeAvatarFile] of the second version refuses an image
    with a zero side, where [cropAndResizeDataUrl] goes on with a rectangle
    of zero width and zero height; on every other image the two compute
    the same rectangle, so the [Math.max] guard of the second version
    never takes effect. *)
Theorem normalizeAvatarFile_crops_like_cropAndResizeDataUrl (srcW srcH : N) :
  match srcW, srcH with
  | N.pos _, N.pos _ =>
      normalizedCrop srcW srcH = Some (cropRect srcW srcH)
  | _, _ =>
      normalizedCrop srcW srcH = None ∧
      sw (cropRect srcW srcH) = 0%Z ∧ sh (cropRect srcW srcH) = 0%Z
  end.
Proof.
  destruct srcW as [|w], srcH as [|h].
  - done.
  - split; [done|]. split; reflexivity.
  - split; [done|]. split; reflexivity.
  - unfold normalizedCrop. rewrite bool_decide_eq_false_2 by (intros [?|?]; done).
    unfold cropRect. cbn [divide greaterThan lessThan].
    change (Z.of_N (N.pos w)) with (Z.pos w).
    change (Z.of_N (N.pos h)) with (Z.pos h).
    set (q := (inject_Z (Z.pos w) / inject_Z (Z.pos h))%Q).
    assert (640 # 768 == AVATAR_ASPECT)%Q as Hasp by done.
    destruct (Qlt_le_dec (640 # 768) q) as [H1|H1],
             (Qlt_le_dec AVATAR_ASPECT q) as [H2|H2];
      try (rewrite Hasp in H1; exfalso; lra).
    + f_equal.
      assert (Math_round (inject_Z (Z.pos h) * (640 # 768)) =
              Math_round (inject_Z (Z.pos h) * AVATAR_ASPECT)) as ->
        by (apply Math_round_comp; by rewrite Hasp).
      done.
    + destruct (Qlt_le_dec q (640 # 768)) as [H3|H3],
               (Qlt_le_dec q AVATAR_ASPECT) as [H4|H4];
        try (rewrite Hasp in H3; exfalso; lra); [|done].
      f_equal.
      assert (Math_round (inject_Z (Z.pos w) / (640 # 768)) =
              Math_round (inject_Z (Z.pos w) / AVATAR_ASPECT)) as ->
        by (apply Math_round_comp; by rewrite Hasp).
      rewrite Z.max_r; [done|].
      assert (Math_round (inject_Z (Z.pos w) / AVATAR_ASPECT) =
              Math_round ((6 * Z.pos w) # 5)) as ->.
      { apply Math_round_eq.
        unfold Qeq, AVATAR_ASPECT, Qdiv, Qmult, Qinv, inject_Z. simpl. lia. }
      pose proof (Math_round_spec (6 * Z.pos w) 5) as Hr.
      unfold q, Qlt, AVATAR_ASPECT, Qdiv, Qmult, Qinv, inject_Z in H4.
      simpl in H4. lia.
Qed.

(** ** The frequency bars *)

Lemma length_bars n bw h data : ∀ i x, length (bars n bw h i x data) = length data.
Proof. induction data as [|d data IH]; intros i x; simpl; [done|]. by rewrite IH. Qed.

Lemma bars_lookup n bw h data : ∀ i x k d,
  data !! k = Some d →
  ∃ rect, bars n bw h i x data !! k = Some rect ∧
    (rect_x rect == x + ofNat k * (bw + 1))%Q ∧
    rect_w rect = bw ∧ rect_h rect = (byteValue d / 2)%Q ∧
    rect_y rect = (h - byteValue d / 2)%Q ∧
    fillStyle rect =
      Rgb (byteValue d / 2 + 25 * (ofNat (i + k) / ofNat n))
          (250 * (ofNat (i + k) / ofNat n)) 50.
Proof.
  induction data as [|d0 data IH]; intros i x k d Hk; [done|].
  destruct k as [|k]; simpl in Hk.
  - injection Hk as ->. eexists. split; [reflexivity|].
    cbn [rect_x rect_w rect_h rect_y fillStyle].
    rewrite Nat.add_0_r. split; [|done].
    change (ofNat 0) with 0%Q. lra.
  - destruct (IH (S i) (x + (bw + 1))%Q k d Hk)
      as (rect & Hr & Hx & Hw & Hh & Hy & Hc).
    exists rect. split; [done|]. split.
    { rewrite Hx. unfold ofNat.
      rewrite Nat2Z.inj_succ, <-Z.add_1_r, inject_Z_plus.
      change (inject_Z 1) with 1%Q. lra. }
    repeat split; try done.
    rewrite Hc. by replace (S i + k) with (i + S k) by lia.
Qed.

Lemma byteValue_range d : (0 <= byteValue d <= 255)%Q.
Proof.
  unfold byteValue. pose proof (Byte.to_N_bounded d) as Hb.
  split.
  - change 0%Q with (inject_Z 0). rewrite <-Zle_Qle. lia.
  - change 255%Q with (inject_Z 255). rewrite <-Zle_Qle. lia.
Qed.

Lemma ofNat_ratio k n : k < n → (0 <= ofNat k / ofNat n < 1)%Q.
Proof.
  intros Hlt. unfold ofNat.
  assert (0 < inject_Z (Z.of_nat n))%Q as Hn.
  { change 0%Q with (inject_Z 0). rewrite <-Zlt_Qlt. lia. }
  assert (0 <= inject_Z (Z.of_nat k))%Q as Hk.
  { change 0%Q with (inject_Z 0). rewrite <-Zle_Qle. lia. }
  assert (inject_Z (Z.of_nat k) < inject_Z (Z.of_nat n))%Q as Hkn.
  { rewrite <-Zlt_Qlt. lia. }
  split.
  - apply Qle_shift_div_l; [done|]. lra.
  - apply Qlt_shift_div_r; [done|]. lra.
Qed.

(** X12.  One frame of the visualizer is the fade rectangle followed by
    one bar per frequency bin.  The bar of bin [k] is [barWidth] wide,
    starts at [k * (barWidth + 1)] (so consecutive bars are one pixel
    apart), stands on the bottom edge of the canvas and is half the bin's
    value high, at most 127.5; its red component lies between that height
    and 25 more, its green component in [0, 250), its blue is 50. *)
Theorem draw_paints_one_bar_per_bin
    (width height : N) (dataArray : list Byte.byte) (k : nat) (d : Byte.byte)
    (Hk : dataArray !! k = Some d) :
  let w := inject_Z (Z.of_N width) in
  let h := inject_Z (Z.of_N height) in
  let barWidth := (w / ofNat (length dataArray) * (25 # 10))%Q in
  length (draw width height dataArray) = S (length dataArray) ∧
  ∃ rect r g,
    draw width height dataArray !! S k = Some rect ∧
    (rect_x rect == ofNat k * (barWidth + 1))%Q ∧
    rect_w rect = barWidth ∧
    rect_h rect = (byteValue d / 2)%Q ∧
    (0 <= rect_h rect <= 255 / 2)%Q ∧
    (rect_y rect + rect_h rect == h)%Q ∧
    fillStyle rect = Rgb r g 50 ∧
    (rect_h rect <= r < rect_h rect + 25)%Q ∧ (0 <= g < 250)%Q.
Proof.
  intros w h barWidth. split.
  { unfold draw. simpl. by rewrite length_bars. }
  unfold draw. simpl lookup. fold w h barWidth.
  destruct (bars_lookup (length dataArray) barWidth h dataArray 0 0 k d Hk)
    as (rect & Hr & Hx & Hw & Hh & Hy & Hc).
  simpl in Hc.
  assert (k < length dataArray) as Hlt by (by apply lookup_lt_Some in Hk).
  pose proof (ofNat_ratio k (length dataArray) Hlt) as Hratio.
  pose proof (byteValue_range d) as Hbyte.
  set (ratio := (ofNat k / ofNat (length dataArray))%Q) in *.
  exists rect, (byteValue d / 2 + 25 * ratio)%Q, (250 * ratio)%Q.
  split; [done|]. split; [rewrite Hx; lra|]. split; [done|].
  split; [done|]. rewrite Hh, Hy.
  set (v := byteValue d) in *. clearbody v ratio h. clear Hx.
  unfold Qdiv. change (/ 2)%Q with (1 # 2)%Q.
    split; [lra|]. split; [lra|]. split; [done|]. lra.
Qed.

Lemma draw_paints_one_bar_per_bin_witness :
  length (draw 300 50 [Byte.x10; Byte.xff]) = 3 ∧
  ∃ rect r g,
    draw 300 50 [Byte.x10; Byte.xff] !! 2 = Some rect ∧
    (rect_x rect == 376)%Q ∧ (rect_h rect == 255 / 2)%Q ∧
    fillStyle rect = Rgb r g 50 ∧ (g < 250)%Q.
Proof.
  assert ([Byte.x10; Byte.xff] !! 1 = Some Byte.xff) as Hk by reflexivity.
  destruct (draw_paints_one_bar_per_bin 300 50 _ 1 Byte.xff Hk)
    as (Hlen & rect & r & g & Hr & Hx & _ & Hh & _ & _ & Hc & _ & Hg).
  split; [exact Hlen|]. exists rect, r, g.
  split; [exact Hr|]. split; [rewrite Hx; reflexivity|].
  split; [rewrite Hh; reflexivity|]. split; [exact Hc|]. apply Hg.
Defined.

(** X13.  The bars are 2.5 times as wide as an equal share of the canvas,
    so only the first two fifths of the bins can show: the bar of every
    bin [k] with [2 * bufferLength <= 5 * k] starts at or beyond the right
    edge of the canvas. *)
Theorem bars_beyond_two_fifths_are_off_canvas
    (width height : N) (dataArray : list Byte.byte) (k : nat) (d : Byte.byte)
    (Hk : dataArray !! k = Some d)
    (Hfar : 2 * length dataArray ≤ 5 * k) :
  ∃ rect, draw width height dataArray !! S k = Some rect ∧
    (inject_Z (Z.of_N width) <= rect_x rect)%Q.
Proof.
  unfold draw. simpl lookup.
  set (n := length dataArray) in *. set (w := inject_Z (Z.of_N width)).
  set (bw := (w / ofNat n * (25 # 10))%Q).
  destruct (bars_lookup n bw (inject_Z (Z.of_N height)) dataArray 0 0 k d Hk)
    as (rect & Hr & Hx & _).
  exists rect. split; [done|]. rewrite Hx.
  assert (k < n) as Hlt by (by apply lookup_lt_Some in Hk).
  assert (0 < ofNat n)%Q as Hn.
  { unfold ofNat. change 0%Q with (inject_Z 0). rewrite <-Zlt_Qlt. lia. }
  assert (0 <= w)%Q as Hw.
  { unfold w. change 0%Q with (inject_Z 0). rewrite <-Zle_Qle. lia. }
  assert (2 * ofNat n <= 5 * ofNat k)%Q as Hfar'.
  { unfold ofNat. change 2%Q with (inject_Z 2). change 5%Q with (inject_Z 5).
    rewrite <-!inject_Z_mult, <-Zle_Qle. lia. }
  set (q := (w / ofNat n)%Q).
  assert (w == q * ofNat n)%Q as Hq.
  { unfold q. field. lra. }
  assert (0 <= q)%Q as Hq0.
  { unfold q. apply Qle_shift_div_l; [done|]. lra. }
  unfold bw. fold q. rewrite Hq.
  assert (0 <= ofNat k)%Q as Hk0 by lra.
  nra.
Qed.

Lemma bars_beyond_two_fifths_are_off_canvas_witness :
  ∃ rect, draw 300 50 [Byte.x10; Byte.xff] !! 2 = Some rect ∧
    (300 <= rect_x rect)%Q.
Proof.
  assert ([Byte.x10; Byte.xff] !! 1 = Some Byte.xff) as Hk by reflexivity.
  assert (2 * length [Byte.x10; Byte.xff] ≤ 5 * 1) as Hfar by (simpl; lia).
  exact (bars_beyond_two_fifths_are_off_canvas 300 50 _ 1 Byte.xff Hk Hfar).
Defined.

(** ** The application around the live session *)

Lemma playAudioChunkAwaited_cases d o now s :
  playAudioChunkAwaited d o now s =
  match o with
  | Some b => scheduleSource d b now (set_decoding (decoding s) s)
  | None => decodeFailed (set_decoding (decoding s) s)
  end.
Proof.
  destruct o as [b|].
  - apply (enqueue_unfold s (mkChunk d b now)).
  - apply enqueueFailing_unfold.
Qed.

(** What an exchange leaves alone. *)
Lemma exchange_frame x a :
  let a' := exchange x a in
  isLiveConnected a' = isLiveConnected a ∧ isMicOn a' = isMicOn a ∧
  isLoading a' = isLoading a ∧ streamRef a' = streamRef a ∧
  scriptProcessorRef a' = scriptProcessorRef a ∧
  currentInputTrans (session a') = currentInputTrans (session a) ∧
  currentOutputTrans (session a') = currentOutputTrans (session a) ∧
  stopped (session a') = stopped (session a).
Proof.
  unfold exchange.
  destruct (generated x) as [reply|e]; [|by destruct e].
  destruct (synthesized x) as [audio|e]; [|by destruct e].
  destruct (truthy audio) as [d|]; [|done].
  cbn zeta. unfold on_session. cbn [isLiveConnected isMicOn isLoading streamRef
    scriptProcessorRef session].
  rewrite playAudioChunkAwaited_cases.
  by destruct (decoded x).
Qed.

(** The decodes that were pending before an exchange are pending after
    it: the one the exchange awaits is its own. *)
Lemma exchange_decoding x a :
  decoding (session (exchange x a)) = decoding (session a).
Proof.
  unfold exchange.
  destruct (generated x) as [reply|e]; [|by destruct e].
  destruct (synthesized x) as [audio|e]; [|by destruct e].
  destruct (truthy audio) as [d|]; [|done].
  cbn zeta. unfold on_session. cbn [session].
  rewrite playAudioChunkAwaited_cases.
  by destruct (decoded x).
Qed.

Lemma exchange_messages x a :
  messages (session (exchange x a)) = messages (session a) ++ replyOf x.
Proof.
  unfold exchange, replyOf.
  destruct (generated x) as [reply|e]; [|destruct e; by rewrite app_nil_r].
  destruct (synthesized x) as [audio|e]; [|by destruct e].
  destruct (truthy audio) as [d|]; [|done].
  cbn zeta. unfold on_session. cbn [session].
  unfold playAudioChunkAwaited. by rewrite messages_resume.
Qed.

Lemma exchange_error x a :
  error (exchange x a) =
  match rejection x with
  | Some (ErrorObject message) =>
      Some (orElse message "Error generating response")
  | _ => error a
  end.
Proof.
  unfold exchange, rejection.
  destruct (generated x) as [reply|e]; [|by destruct e].
  destruct (synthesized x) as [audio|e]; [|by destruct e].
  by destruct (truthy audio).
Qed.

Lemma orElse_nonempty o fallback : fallback ≠ "" → orElse o fallback ≠ "".
Proof.
  intros Hf. unfold orElse, truthy.
  destruct o as [t|]; [|done]. by case_bool_decide.
Qed.

Lemma appStep_flags API_KEY a e :
  isMicOn a = isLiveConnected a →
  isMicOn (appStep API_KEY a e) = isLiveConnected (appStep API_KEY a e).
Proof.
  intros Ha. destruct e as [e| | |m| | | |x t]; cbn [appStep]; try done.
  - unfold handleMicToggle, connectLive.
    destruct (isMicOn a) eqn:Hmic; [done|].
    case_bool_decide; [by rewrite Hmic|]. cbn. by rewrite Hmic.
  - unfold sendTextMessage. case_bool_decide; [done|].
    cbn zeta.
    set (b := on_session (set_avatarPose THINKING_GHOST) _).
    destruct (exchange_frame x b) as (Hconn & Hmic & _).
    change (isMicOn (exchange x b) = isLiveConnected (exchange x b)).
    rewrite Hconn, Hmic. unfold b.
    destruct (isLiveConnected a) eqn:Hlive; [done|].
    cbn. by rewrite Hlive.
Qed.

(** X14.  The microphone flag and the connection flag never part: every
    callback that writes one writes the other to the same value, so after
    any sequence of callbacks [isMicOn] is [isLiveConnected]. *)
Theorem mic_flag_follows_connection
    (API_KEY : string) (a : App) (tr : list AppEvent)
    (Ha : isMicOn a = isLiveConnected a) :
  isMicOn (appRun API_KEY a tr) = isLiveConnected (appRun API_KEY a tr).
Proof.
  revert a Ha. induction tr as [|e tr IH]; intros a Ha; [done|].
  simpl. apply IH. by apply appStep_flags.
Qed.

Lemma mic_flag_follows_connection_witness :
  isMicOn (appRun "key" initialApp
             [MicToggled; MediaGranted; Opened; TextSent answered "hi"]) =
  isLiveConnected (appRun "key" initialApp
             [MicToggled; MediaGranted; Opened; TextSent answered "hi"]).
Proof.
  apply (mic_flag_follows_connection "key" initialApp). reflexivity.
Defined.

(** X15.  [disconnectLive] empties the active set but cancels no decode:
    a chunk whose decode is still pending when the session is
    disconnected is started when the decode settles, at the clock reading
    of that moment, although the session is no longer connected. *)
Theorem decode_pending_at_disconnect_still_plays
    (a : App) (i : nat) (d : string) (b : AudioBuffer) (now : Q)
    (Hi : decoding (session a) !! i = Some d) (Hnow : (0 <= now)%Q) :
  let a1 := disconnectLiveApp a in
  let a2 := on_session (playAudioChunk_resume i (Some b) now) a1 in
  audioSources (session a1) = [] ∧
  isLiveConnected a2 = false ∧
  ∃ source,
    audioSources (session a2) = [source] ∧
    started (session a2) = started (session a) ++ [source] ∧
    node_chunk source = d ∧ node_buffer source = b ∧
    (node_when source == now)%Q.
Proof.
  intros a1 a2. split; [done|]. split; [done|].
  unfold a2, a1, disconnectLiveApp, on_session. cbn [session].
  rewrite (resume_success _ _ _ _ d) by done.
  eexists. split; [reflexivity|]. split; [reflexivity|].
  split; [done|]. split; [done|].
  cbn [node_when newSource]. by apply planStart_after_reset.
Qed.

Lemma decode_pending_at_disconnect_still_plays_witness :
  ∃ source,
    audioSources
      (session (on_session (playAudioChunk_resume 0 (Some (pcm 7200)) 5)
                  (disconnectLiveApp liveApp))) = [source] ∧
    node_chunk source = "BBBB" ∧ (node_when source == 5)%Q.
Proof.
  assert (decoding (session liveApp) !! 0 = Some "BBBB") as Hi
    by (vm_compute; reflexivity).
  assert (0 <= 5)%Q as Hnow by qle_by_computation.
  destruct (decode_pending_at_disconnect_still_plays
              liveApp 0 "BBBB" (pcm 7200) 5 Hi Hnow)
    as (_ & _ & source & Hset & _ & Hchunk & _ & Hwhen).
  exists source. split; [exact Hset|]. split; [exact Hchunk|exact Hwhen].
Defined.

Lemma appStep_accumulator API_KEY r a e :
  shellEvent e →
  accumulator r (session (appStep API_KEY a e)) = accumulator r (session a).
Proof.
  intros He. destruct e as [e| | |m| | | |x t]; cbn [appStep]; try done.
  - unfold handleMicToggle, connectLive.
    destruct (isMicOn a); [by destruct r|].
    case_bool_decide; [done|]. by destruct r.
  - unfold sendTextMessage. case_bool_decide; [done|].
    cbn zeta.
    set (b := on_session (set_avatarPose THINKING_GHOST) _).
    destruct (exchange_frame x b) as (_ & _ & _ & _ & _ & Hin & Hout & _).
    cbn zeta in Hin, Hout.
    assert (accumulator r (session (exchange x b)) = accumulator r (session a))
      as Hacc.
    { destruct r; simpl; [rewrite Hin|rewrite Hout]; unfold b;
        by destruct (isLiveConnected a). }
    by destruct r.
Qed.

Lemma appRun_accumulator API_KEY r tr : ∀ a,
  Forall shellEvent tr →
  accumulator r (session (appRun API_KEY a tr)) = accumulator r (session a).
Proof.
  induction tr as [|e tr IH]; intros a Htr; [done|].
  apply Forall_cons in Htr as [He Htr]. simpl.
  rewrite IH by done. by apply appStep_accumulator.
Qed.

(** X16.  Only the session callback writes the transcript accumulators:
    connecting, disconnecting, a closed or failed session and text
    exchanges leave both as they are, so a draft that was open when the
    session went away is continued by the first delta of the next
    session ([old draft + delta] is the text of the last message). *)
Theorem drafts_survive_outside_the_session
    (API_KEY : string) (a : App) (tr : list AppEvent)
    (r : Role) (newId textDelta : string)
    (Hshell : Forall shellEvent tr) :
  let a' := appRun API_KEY a tr in
  accumulator r (session a') = accumulator r (session a) ∧
  ∃ l i,
    messages (append newId r textDelta (session a')) =
    l ++ [mkMsg i r (accumulator r (session a) +:+ textDelta) false].
Proof.
  intros a'.
  assert (accumulator r (session a') = accumulator r (session a)) as Hacc
    by (by apply appRun_accumulator).
  split; [done|]. rewrite <-Hacc. apply append_last.
Qed.

Lemma drafts_survive_outside_the_session_witness :
  ∃ l i,
    messages
      (append "20" model "lo"
         (session (appRun "key" liveApp [MicToggled; MicToggled; Opened]))) =
    l ++ [mkMsg i model "hello" false].
Proof.
  assert (Forall shellEvent [MicToggled; MicToggled; Opened]) as Hshell
    by (repeat constructor).
  exact (proj2 (drafts_survive_outside_the_session
                  "key" liveApp _ model "20" "lo" Hshell)).
Defined.

Lemma sendTextMessage_unfold API_KEY x text a :
  API_KEY ≠ "" →
  sendTextMessage API_KEY x text a =
  on_session (set_avatarPose IDLE_FRONT)
    (set_isLoading false
       (exchange x
          (on_session (set_avatarPose THINKING_GHOST)
             (set_isLoading true
                (on_session
                   (λ s, set_messages
                           (addMessage (userId x) user text true (messages s))
                           s)
                   (if isLiveConnected a then disconnectLiveApp a else a)))))).
Proof. intros Hkey. unfold sendTextMessage. by case_bool_decide. Qed.

(** X17.  A text exchange (with an API key, and no other callback running
    in between) appends the user's text as one final message, then, if
    the first request is answered, the reply as one final message of the
    model whose text is never empty; if the request is rejected only the
    user's message is added.  The messages that were there are kept as
    they were, open drafts included. *)
Theorem sendTextMessage_appends_question_and_reply
    (API_KEY : string) (x : TextExchange) (userText : string) (a : App)
    (Hkey : API_KEY ≠ "") :
  let a' := sendTextMessage API_KEY x userText a in
  messages (session a') =
    messages (session a) ++ mkMsg (userId x) user userText true :: replyOf x ∧
  length (replyOf x) ≤ 1 ∧
  Forall (λ m, role m = model ∧ text m ≠ "" ∧ isFinal m = true)
    (replyOf x).
Proof.
  intros a'. unfold a'. rewrite sendTextMessage_unfold by done.
  split; [|split].
  - change (messages (session (on_session ?f (set_isLoading ?v ?b))))
      with (messages (session b)).
    rewrite exchange_messages. cbn [session on_session set_isLoading].
    unfold addMessage. cbn [messages set_messages set_avatarPose].
    rewrite <-app_assoc. by destruct (isLiveConnected a).
  - unfold replyOf. destruct (generated x); simpl; lia.
  - unfold replyOf. destruct (generated x) as [reply|m]; [|done].
    constructor; [|done]. cbn [role text isFinal].
    split; [done|]. split; [|done]. by apply orElse_nonempty.
Qed.

Lemma sendTextMessage_appends_question_and_reply_witness :
  messages (session (sendTextMessage "key" answered "hi" liveApp)) =
  [mkMsg "10" model "hel" false; mkMsg "1" user "hi" true;
   mkMsg "2" model "hello" true].
Proof.
  assert ("key" ≠ "") as Hkey by discriminate.
  exact (proj1 (sendTextMessage_appends_question_and_reply
                  "key" answered "hi" liveApp Hkey)).
Defined.

(** X18.  However a text exchange goes (with an API key, and no other
    callback running between its first line and its last), it ends with
    the loading flag off, the idle pose and the live connection flagged
    off.  When a request is rejected with an object, the error shown
    afterwards is its message, or ["Error generating response"] when it
    has none or an empty one, and is never empty.  When a request is
    rejected with [undefined] or [null] the [catch] clause itself throws
    and no error is set; the error is then left as it was, as when no
    request is rejected, an earlier one included. *)
Theorem sendTextMessage_settles
    (API_KEY : string) (x : TextExchange) (text : string) (a : App)
    (Hkey : API_KEY ≠ "") :
  let a' := sendTextMessage API_KEY x text a in
  isLoading a' = false ∧
  avatarPose (session a') = IDLE_FRONT ∧
  isLiveConnected a' = false ∧
  match rejection x with
  | Some (ErrorObject message) =>
      ∃ shown, error a' = Some shown ∧ shown ≠ "" ∧
        (∀ m, message = Some m → m ≠ "" → shown = m) ∧
        (truthy message = None → shown = "Error generating response")
  | Some Undefined | Some Null | None => error a' = error a
  end.
Proof.
  intros a'. unfold a'. rewrite sendTextMessage_unfold by done.
  split; [done|]. split; [done|].
  set (b := on_session (set_avatarPose THINKING_GHOST) _).
  split.
  - change (isLiveConnected (exchange x b) = false).
    destruct (exchange_frame x b) as (-> & _). unfold b.
    destruct (isLiveConnected a) eqn:Hlive; [done|]. cbn. by rewrite Hlive.
  - change (error (on_session ?f (set_isLoading ?v ?c))) with (error c).
    rewrite exchange_error.
    assert (error b = error a) as Hb
      by (unfold b; by destruct (isLiveConnected a)).
    destruct (rejection x) as [[| |message]|]; try done.
    eexists. split; [reflexivity|]. split; [by apply orElse_nonempty|].
    split.
    + intros m -> Hm. unfold orElse, truthy.
      by rewrite bool_decide_eq_false_2.
    + unfold orElse. by intros ->.
Qed.

Lemma sendTextMessage_settles_witness :
  let failing :=
    mkExchange "1" "2" (Fulfilled (Some "hello"))
      (Rejected (ErrorObject (Some "quota exceeded"))) None 0 in
  isLoading (sendTextMessage "key" failing "hi" liveApp) = false ∧
  isLiveConnected (sendTextMessage "key" failing "hi" liveApp) = false ∧
  error (sendTextMessage "key" failing "hi" liveApp) = Some "quota exceeded".
Proof.
  intros failing.
  assert ("key" ≠ "") as Hkey by discriminate.
  destruct (sendTextMessage_settles "key" failing "hi" liveApp Hkey)
    as (Hload & _ & Hconn & shown & Herr & _ & Hmessage & _).
  split; [exact Hload|]. split; [exact Hconn|].
  rewrite Herr. f_equal. by apply Hmessage.
Defined.

Lemma exchange_audio x a :
  match spoken x with
  | Some (d, b) =>
      audioSources (session (exchange x a)) =
        audioSources (session a) ++ [newSource d b (decodedAt x) (session a)] ∧
      started (session (exchange x a)) =
        started (session a) ++ [newSource d b (decodedAt x) (session a)]
  | None =>
      audioSources (session (exchange x a)) = audioSources (session a) ∧
      started (session (exchange x a)) = started (session a)
  end.
Proof.
  unfold exchange, spoken.
  destruct (generated x) as [reply|e]; [|by destruct e].
  destruct (synthesized x) as [audio|e]; [|by destruct e].
  destruct (truthy audio) as [d|]; [|done].
  cbn zeta. unfold on_session. cbn [session].
  rewrite playAudioChunkAwaited_cases.
  by destruct (decoded x).
Qed.

(** X19.  A text exchange started while the live session is connected
    (with an API key) first disconnects: the microphone stream and the
    processor are released and every source that was active is stopped.
    When no other callback runs between its first line and its last (in
    particular no decode that was pending settles meanwhile), the active
    set then holds the source of the spoken reply and nothing else,
    started at the clock reading of its decode; it is empty when the
    exchange produced no audio.  The decodes that were pending before the
    exchange are still pending after it. *)
Theorem sendTextMessage_takes_over_audio
    (API_KEY : string) (x : TextExchange) (text : string) (a : App)
    (Hkey : API_KEY ≠ "") (Hlive : isLiveConnected a = true)
    (Hclock : (0 <= decodedAt x)%Q) :
  let a' := sendTextMessage API_KEY x text a in
  streamRef a' = false ∧ scriptProcessorRef a' = false ∧
  (∀ n, n ∈ audioSources (session a) → node_id n ∈ stopped (session a')) ∧
  decoding (session a') = decoding (session a) ∧
  match spoken x with
  | Some (d, b) =>
      ∃ source,
        audioSources (session a') = [source] ∧
        started (session a') = started (session a) ++ [source] ∧
        node_chunk source = d ∧ node_buffer source = b ∧
        (node_when source == decodedAt x)%Q
  | None =>
      audioSources (session a') = [] ∧
      started (session a') = started (session a)
  end.
Proof.
  intros a'. unfold a'. rewrite sendTextMessage_unfold by done.
  rewrite Hlive.
  set (b := on_session (set_avatarPose THINKING_GHOST) _).
  destruct (exchange_frame x b) as (_ & _ & _ & Hstream & Hproc & _ & _ & Hstop).
  cbn zeta in Hstream, Hproc, Hstop.
  split; [exact Hstream|]. split; [exact Hproc|]. split.
  { intros n Hn.
    change (node_id n ∈ stopped (session (exchange x b))). rewrite Hstop.
    unfold b. cbn. apply elem_of_app; right. by apply list_elem_of_fmap_2. }
  split; [exact (exchange_decoding x b)|].
  pose proof (exchange_audio x b) as Haudio.
  destruct (spoken x) as [[d src]|].
  - destruct Haudio as [Hset Hstarted].
    exists (newSource d src (decodedAt x) (session b)).
    split; [exact Hset|]. split; [exact Hstarted|].
    split; [done|]. split; [done|].
    cbn [node_when newSource]. by apply planStart_after_reset.
  - exact Haudio.
Qed.

Lemma sendTextMessage_takes_over_audio_witness :
  decoding (session (sendTextMessage "key" answered "hi" liveApp)) =
    ["BBBB"] ∧
  ∃ source,
    audioSources (session (sendTextMessage "key" answered "hi" liveApp)) =
      [source] ∧
    node_chunk source = "UklGRg" ∧ (node_when source == 3)%Q.
Proof.
  assert ("key" ≠ "") as Hkey by discriminate.
  assert (isLiveConnected liveApp = true) as Hlive by reflexivity.
  assert (0 <= decodedAt answered)%Q as Hclock by qle_by_computation.
  destruct (sendTextMessage_takes_over_audio
              "key" answered "hi" liveApp Hkey Hlive Hclock)
    as (_ & _ & _ & Hdec & source & Hset & _ & Hchunk & _ & Hwhen).
  split; [exact Hdec|].
  exists source. split; [exact Hset|]. split; [exact Hchunk|exact Hwhen].
Defined.

(** ** After an interruption *)

Lemma shown_append newId r d s :
  shown r (append newId r d s) = Some (accumulator r s +:+ d).
Proof.
  unfold shown. destruct (append_last newId r d s) as (l & i & ->).
  rewrite messagesOf_snoc. simpl. rewrite decide_True by done.
  by rewrite last_snoc.
Qed.

Lemma messagesOf_append_other newId r r' d s :
  r' ≠ r →
  messagesOf r' (messages (append newId r d s)) = messagesOf r' (messages s).
Proof.
  intros Hother. rewrite messages_append.
  destruct (snoc_view (messages s)) as [->|(l & m & ->)].
  { rewrite updateLiveMessage_nil. unfold messagesOf.
    by rewrite filter_cons_False by (simpl; congruence). }
  rewrite updateLiveMessage_snoc.
  destruct (liveFor r (Some m)) eqn:Hlive.
  - apply liveFor_Some in Hlive as [Hr _].
    rewrite !messagesOf_snoc. simpl.
    by rewrite !decide_False by congruence.
  - rewrite (messagesOf_snoc r' (l ++ [m])). simpl.
    rewrite decide_False by congruence. by rewrite app_nil_r.
Qed.

Lemma showsDraft_append newId r d s r' :
  showsDraft r' s → showsDraft r' (append newId r d s).
Proof.
  intros Hshow. destruct (decide (r' = r)) as [->|Hother].
  - intros _. rewrite accumulator_append. apply shown_append.
  - unfold showsDraft, shown in *.
    by rewrite accumulator_other, messagesOf_append_other.
Qed.

Lemma showsDraft_frame r s s' :
  messages s' = messages s → accumulator r s' = accumulator r s →
  showsDraft r s → showsDraft r s'.
Proof. unfold showsDraft, shown. by intros -> ->. Qed.

Lemma showsDraft_step r s e :
  withinTurn e → showsDraft r s → showsDraft r (step s e).
Proof.
  destruct e as [idOut idIn msg|i o now|k| | | |newId r' t|d|p]; simpl;
    try done;
    try (intros _ Hshow; apply (showsDraft_frame r s);
         [done|by destruct r|done]).
  - intros [Ht Hi] Hshow.
    destruct (inlineData msg) as [base64Audio|] eqn:Hread;
      [|by rewrite onmessage_throws].
    rewrite (onmessage_within_turn _ _ _ _ _ Hread) by done.
    set (s1 := whenSome (truthy base64Audio) playAudioChunk s).
    assert (showsDraft r s1) as H1.
    { subst s1. destruct (truthy base64Audio); [|done].
      apply (showsDraft_frame r s); [done|by destruct r|done]. }
    set (s2 := whenSome (truthy (outputTranscription msg)) _ s1).
    assert (showsDraft r s2) as H2.
    { subst s2. destruct (truthy (outputTranscription msg));
        cbn [whenSome]; [|done].
      by apply showsDraft_append. }
    destruct (truthy (inputTranscription msg)); cbn [whenSome]; [|done].
    by apply showsDraft_append.
  - intros _ Hshow.
    destruct (resume_cases i o now s)
      as [[_ ->]|[(d & b & _ & _ & ->)|(d & _ & _ & ->)]]; [done| |];
      (apply (showsDraft_frame r s); [done|by destruct r|done]).
  - intros _ Hshow. unfold idleTimerFired.
    destruct (idleTimeout s); [|done].
    apply (showsDraft_frame r s); [done|by destruct r|done].
Qed.

Lemma run_showsDraft r tr s :
  Forall withinTurn tr → showsDraft r s → showsDraft r (run s tr).
Proof.
  intros Hturn. revert s. induction Hturn as [|e tr He _ IH]; intros s Hs;
    [done|].
  simpl. by apply IH, showsDraft_step.
Qed.

(** X20.  An interrupted draft is not continued.  After the
    [interrupted] block, within the turn that follows, the model's
    accumulator is exactly the model's deltas since the interruption,
    and once one has arrived the model's most recent message shows
    exactly them, whether the draft's message was still last and is
    overwritten in place or a message of the user came after it and a
    new message is opened.  The messages that were there keep their
    place, their [id] and their [role]. *)
Theorem draft_restarts_after_interruption
    (s : State) (tr : list Event)
    (Hturn : Forall withinTurn tr)
    (Hnew : deltasOf model tr ≠ "") :
  let s' := run (onInterrupted s) tr in
  accumulator model s' = deltasOf model tr ∧
  shown model s' = Some (deltasOf model tr) ∧
  identity <$> messages s `prefix_of` identity <$> messages s'.
Proof.
  intros s'.
  assert (accumulator model s' = deltasOf model tr) as Hacc.
  { unfold s'. by rewrite run_accumulator. }
  split; [exact Hacc|]. split.
  - assert (showsDraft model s') as Hshow.
    { apply run_showsDraft; [done|]. by intros Hne. }
    rewrite <-Hacc. apply Hshow. by rewrite Hacc.
  - by apply (run_identity_prefix (messages s) tr (onInterrupted s)).
Qed.

Lemma draft_restarts_after_interruption_witness :
  let s := run initial [outputDelta "1" "I think"; inputDelta "2" "wait"] in
  let tr := [inputDelta "3" " please"; outputDelta "4" "Sure";
             outputDelta "5" ", go on"] in
  Forall withinTurn tr ∧
  messages (run (onInterrupted s) tr) =
    [mkMsg "1" model "I think" false; mkMsg "2" user "wait please" false;
     mkMsg "4" model "Sure, go on" false] ∧
  shown model (run (onInterrupted s) tr) = Some "Sure, go on".
Proof.
  intros s tr.
  assert (Forall withinTurn tr) as Hturn by (repeat constructor).
  assert (deltasOf model tr ≠ "") as Hnew by discriminate.
  destruct (draft_restarts_after_interruption s tr Hturn Hnew)
    as (_ & Hshown & _).
  split; [exact Hturn|]. split; [reflexivity|exact Hshown].
Defined.
